(** * Verification of lazylog's core: filter engine, structured reassembler,
    decoders and the hand-off queue.

    Shallow embedding of the Rust sources:
    - lazylog-framework/src/filter.rs          (module [Filter])
    - lazylog-framework/src/provider/mod.rs    (module [HandOff])
    - lazylog-dyeh/src/parser.rs               (module [Dyeh])
    - lazylog-parser/src/lib.rs                (module [LazyParser])
    - lazylog-android/src/parser.rs            (module [Android]) *)

From Stdlib Require Import Ascii String.
From Stdlib Require Import List Arith Lia Bool.
From Stdlib Require Import Sorting.Sorted Sorting.Permutation.
Import ListNotations.

(* ===================================================================== *)
(** ** Filter engine (lazylog-framework/src/filter.rs) *)
(* ===================================================================== *)

Module Filter.

(** How rayon's [par_iter] splits a search space among the worker pool:
    [Join mid l r] cuts the slice at [mid], runs both halves in parallel and
    re-joins the two collected vectors in order. *)
Inductive split : Type :=
| Seq : split
| Join : nat -> split -> split -> split.

(** The Unicode data [str::to_lowercase] uses: [char::to_lowercase] (one
    char may lower to several, e.g. U+0130), the test [c == 'Σ'] for the
    capital sigma U+03A3, its lowercase forms σ (U+03C3) and ς (U+03C2), and
    the [Case_Ignorable] and [Cased] properties. *)
Record Casing (Char : Type) := mkCasing {
  char_lower : Char -> list Char;
  is_capital_sigma : Char -> bool;
  small_sigma : Char;
  final_sigma : Char;
  case_ignorable : Char -> bool;
  cased : Char -> bool
}.

Arguments mkCasing {Char}.
Arguments char_lower {Char}.
Arguments is_capital_sigma {Char}.
Arguments small_sigma {Char}.
Arguments final_sigma {Char}.
Arguments case_ignorable {Char}.
Arguments cased {Char}.

Section Engine.

(** Characters of a Rust [str] with decidable equality, and the Unicode
    data [str::to_lowercase] reads. *)
Context {Char Item : Type}.
Context (char_eq_dec : forall a b : Char, {a = b} + {a <> b}).
Context (cs : Casing Char).
(** rayon's splitting of a search space of the given length. *)
Context (par_split : nat -> split).

Definition rstring := list Char.

(** [LogItemFormatter::get_searchable_text] *)
Definition formatter := Item -> nat -> rstring.

Record FilterEngine := mkEngine {
  previous_query : rstring;
  previous_results : list nat;
  fmt : option formatter
}.

(** [FilterEngine::new] followed by an optional [set_formatter]. *)
Definition new_engine (f : option formatter) : FilterEngine :=
  mkEngine [] [] f.

Definition set_formatter (st : FilterEngine) (f : formatter) : FilterEngine :=
  mkEngine (previous_query st) (previous_results st) (Some f).

Definition reset (st : FilterEngine) : FilterEngine :=
  mkEngine [] [] (fmt st).

Definition str_eqb (a b : rstring) : bool :=
  if list_eq_dec char_eq_dec a b then true else false.

Definition is_empty (s : rstring) : bool :=
  match s with [] => true | _ => false end.

Fixpoint starts_with (s p : rstring) {struct p} : bool :=
  match p, s with
  | [], _ => true
  | c :: p', d :: s' => if char_eq_dec c d then starts_with s' p' else false
  | _ :: _, [] => false
  end.

(** [str::contains]: [p] occurs in [s] at some position. *)
Fixpoint contains (s p : rstring) : bool :=
  starts_with s p || match s with [] => false | _ :: s' => contains s' p end.

Fixpoint skip_while (p : Char -> bool) (l : rstring) : rstring :=
  match l with
  | c :: l' => if p c then skip_while p l' else l
  | [] => []
  end.

(** [case_ignorable_then_cased]: the first char that is not case-ignorable
    exists and is cased. *)
Definition case_ignorable_then_cased (it : rstring) : bool :=
  match skip_while (case_ignorable cs) it with
  | c :: _ => cased cs c
  | [] => false
  end.

(** [map_uppercase_sigma]: [before] is [from[..i].chars().rev()], [after]
    is [from[i + 2..].chars()]; a word-final 'Σ' lowers to 'ς', any other
    to 'σ'. *)
Definition map_uppercase_sigma (before after : rstring) : Char :=
  if case_ignorable_then_cased before && negb (case_ignorable_then_cased after)
  then final_sigma cs else small_sigma cs.

(** The loop of [str::to_lowercase] over [char_indices]; [before] holds the
    chars already visited, the most recent first.  (Its ASCII fast path
    [convert_while_ascii] lowers an ASCII prefix the way [char::to_lowercase]
    does.) *)
Fixpoint lower_chars (before rest : rstring) : rstring :=
  match rest with
  | [] => []
  | c :: after =>
      (if is_capital_sigma cs c then [map_uppercase_sigma before after]
       else char_lower cs c) ++ lower_chars (c :: before) after
  end.

(** [str::to_lowercase] *)
Definition to_lowercase (s : rstring) : rstring := lower_chars [] s.

(** [(0..n).collect()] *)
Definition range (n : nat) : list nat := seq 0 n.

(** The closure of [filter_sequential]/[filter_parallel] for one index;
    [raw_logs[idx]] panics out of range, modelled as [None]. *)
Definition test_index (raw_logs : list Item) (pattern_lower : rstring)
    (detail_level : nat) (f : formatter) (idx : nat) : option bool :=
  match nth_error raw_logs idx with
  | None => None
  | Some item => Some (contains (to_lowercase (f item detail_level)) pattern_lower)
  end.

Fixpoint filter_sequential (raw_logs : list Item) (search_space : list nat)
    (pattern_lower : rstring) (detail_level : nat) (f : formatter)
    : option (list nat) :=
  match search_space with
  | [] => Some []
  | idx :: rest =>
      match test_index raw_logs pattern_lower detail_level f idx with
      | None => None
      | Some b =>
          match filter_sequential raw_logs rest pattern_lower detail_level f with
          | None => None
          | Some r => Some (if b then idx :: r else r)
          end
      end
  end.

(** [search_space.par_iter().filter(..).copied().collect()]: each piece is
    filtered by a worker, the collected pieces are concatenated in order. *)
Fixpoint filter_parallel (sp : split) (raw_logs : list Item)
    (search_space : list nat) (pattern_lower : rstring) (detail_level : nat)
    (f : formatter) : option (list nat) :=
  match sp with
  | Seq => filter_sequential raw_logs search_space pattern_lower detail_level f
  | Join mid l r =>
      match filter_parallel l raw_logs (firstn mid search_space)
              pattern_lower detail_level f,
            filter_parallel r raw_logs (skipn mid search_space)
              pattern_lower detail_level f with
      | Some a, Some b => Some (a ++ b)
      | _, _ => None
      end
  end.

(** [search_space.len() > 1000] *)
Definition uses_parallel (search_space : list nat) : bool :=
  1000 <? length search_space.

Definition filter_indices (raw_logs : list Item) (search_space : list nat)
    (pattern_lower : rstring) (detail_level : nat) (f : formatter)
    : option (list nat) :=
  if uses_parallel search_space
  then filter_parallel (par_split (length search_space)) raw_logs search_space
         pattern_lower detail_level f
  else filter_sequential raw_logs search_space pattern_lower detail_level f.

(** [FilterEngine::filter]; [None] is a panic. *)
Definition filter (st : FilterEngine) (raw_logs : list Item) (query : rstring)
    (detail_level : nat) : option (list nat * FilterEngine) :=
  if is_empty query then Some (range (length raw_logs), reset st)
  else
    match fmt st with
    | None => Some (range (length raw_logs), st)
    | Some f =>
        let can_use_incremental :=
          negb (is_empty (previous_query st))
          && starts_with query (previous_query st)
          && negb (match previous_results st with [] => true | _ => false end) in
        let search_space :=
          if can_use_incremental then previous_results st
          else range (length raw_logs) in
        let pattern_lower := to_lowercase query in
        match filter_indices raw_logs search_space pattern_lower detail_level f with
        | None => None
        | Some filtered_indices =>
            Some (filtered_indices, mkEngine query filtered_indices (fmt st))
        end
    end.

(** [FilterEngine::filter_new_logs] *)
Definition filter_new_logs (st : FilterEngine) (raw_logs : list Item)
    (old_count : nat) (query : rstring) (detail_level : nat)
    : option (list nat * FilterEngine) :=
  if negb (str_eqb query (previous_query st)) then filter st raw_logs query detail_level
  else if length raw_logs <=? old_count then Some (previous_results st, st)
  else if is_empty query then Some (range (length raw_logs), st)
  else
    match fmt st with
    | None => Some (range (length raw_logs), st)
    | Some f =>
        let new_indices := seq old_count (length raw_logs - old_count) in
        let pattern_lower := to_lowercase query in
        match filter_indices raw_logs new_indices pattern_lower detail_level f with
        | None => None
        | Some new_filtered =>
            let all_results := previous_results st ++ new_filtered in
            Some (all_results, mkEngine (previous_query st) all_results (fmt st))
        end
    end.

(** Reference semantics: the indices whose lowered searchable text contains
    the lowered query, scanning the whole list. *)
Definition matches (raw_logs : list Item) (query : rstring) (detail_level : nat)
    (f : formatter) (idx : nat) : bool :=
  match nth_error raw_logs idx with
  | None => false
  | Some item => contains (to_lowercase (f item detail_level)) (to_lowercase query)
  end.

Definition selected (raw_logs : list Item) (query : rstring) (detail_level : nat)
    (f : formatter) : list nat :=
  List.filter (matches raw_logs query detail_level f) (range (length raw_logs)).

(** Lowering [q] gives a prefix of lowering any extension of [q]: what
    the incremental path of [filter] takes for granted.  It holds for every
    query without 'Σ', and fails for "aΣ" ("aς", while "aΣb" lowers to
    "aσb"). *)
Definition prefix_stable (q : rstring) : Prop :=
  forall sfx, exists t, to_lowercase (q ++ sfx) = to_lowercase q ++ t.

(** A cache that agrees with the entries and the detail level: empty, or a
    non-empty, prefix-stable query with exactly the indices a full scan
    selects for it. *)
Definition cache_valid (raw_logs : list Item) (detail_level : nat)
    (st : FilterEngine) : Prop :=
  (previous_query st = [] /\ previous_results st = [])
  \/ (previous_query st <> [] /\ prefix_stable (previous_query st) /\
      exists f, fmt st = Some f /\
      previous_results st = selected raw_logs (previous_query st) detail_level f).

(** Engines on which [set_formatter] was never called. *)
Inductive no_formatter_reachable : FilterEngine -> Prop :=
| nfr_new : no_formatter_reachable (new_engine None)
| nfr_filter st raw_logs q d r st' :
    no_formatter_reachable st -> filter st raw_logs q d = Some (r, st') ->
    no_formatter_reachable st'
| nfr_filter_new st raw_logs n q d r st' :
    no_formatter_reachable st -> filter_new_logs st raw_logs n q d = Some (r, st') ->
    no_formatter_reachable st'
| nfr_reset st : no_formatter_reachable st -> no_formatter_reachable (reset st).

End Engine.

End Filter.



(* ===================================================================== *)
(** ** Text and the regular expressions of the reassemblers *)
(* ===================================================================== *)

(** A Rust [str] as its UTF-8 bytes, so that list indices are the byte
    offsets the sources use. The character classes below ([\d], [\s], [\w],
    [char::is_whitespace], [char::is_control], [(?i)]) are given on ASCII;
    on ASCII text they coincide with Rust's Unicode classes. The BOM
    (U+FEFF) stripped by [split_header] is not ASCII and is left out. *)
Module Text.

Definition str := list ascii.

Definition s (x : string) : str := list_ascii_of_string x.

Definition code (c : ascii) : nat := nat_of_ascii c.
Definition is_digit (c : ascii) : bool := (48 <=? code c) && (code c <=? 57).
Definition is_upper (c : ascii) : bool := (65 <=? code c) && (code c <=? 90).
Definition is_lower (c : ascii) : bool := (97 <=? code c) && (code c <=? 122).
Definition is_ws (c : ascii) : bool :=
  ((9 <=? code c) && (code c <=? 13)) || (code c =? 32).
Definition is_word (c : ascii) : bool :=
  is_digit c || is_upper c || is_lower c || (code c =? 95).
Definition is_control (c : ascii) : bool := (code c <=? 31) || (code c =? 127).
Definition ascii_lower (c : ascii) : ascii :=
  if is_upper c then ascii_of_nat (code c + 32) else c.
Definition ci_eq (a b : ascii) : bool := Ascii.eqb (ascii_lower a) (ascii_lower b).

(** [str::trim_start_matches] with a char predicate. *)
Fixpoint trim_start_by (p : ascii -> bool) (t : str) : str :=
  match t with
  | [] => []
  | c :: t' => if p c then trim_start_by p t' else t
  end.

Definition trim_end_by (p : ascii -> bool) (t : str) : str :=
  rev (trim_start_by p (rev t)).

(** [str::trim] *)
Definition trim (t : str) : str := trim_end_by is_ws (trim_start_by is_ws t).

(** The longest prefix whose characters satisfy [p], and the rest. *)
Fixpoint span (p : ascii -> bool) (t : str) : str * str :=
  match t with
  | [] => ([], [])
  | c :: t' => if p c then let (a, b) := span p t' in (c :: a, b) else ([], t)
  end.

(** [&t[a..b]] *)
Definition slice (t : str) (a b : nat) : str := firstn (b - a) (skipn a t).

(** [t.find('\n')] *)
Fixpoint find_nl (t : str) : option nat :=
  match t with
  | [] => None
  | c :: t' => if Ascii.eqb c "010"%char then Some 0 else option_map S (find_nl t')
  end.

(** [t.rfind('\n')] *)
Definition rfind_nl (t : str) : option nat :=
  match find_nl (rev t) with
  | Some k => Some (length t - 1 - k)
  | None => None
  end.

(** Fixed-length pieces of a pattern: a literal byte or [\d]. *)
Inductive atom := Lit (c : ascii) | Digit.

Definition atom_ok (a : atom) (c : ascii) : bool :=
  match a with Lit d => Ascii.eqb c d | Digit => is_digit c end.

Fixpoint fixed_prefix (pat : list atom) (t : str) : bool :=
  match pat, t with
  | [], _ => true
  | a :: pat', c :: t' => atom_ok a c && fixed_prefix pat' t'
  | _ :: _, [] => false
  end.

Definition lits (x : string) : list atom := map Lit (s x).
Definition d2 : list atom := [Digit; Digit].

(** [\d{4}-\d{2}-\d{2} \d{2}:\d{2}:\d{2}] *)
Definition timestamp_pat : list atom :=
  d2 ++ d2 ++ lits "-" ++ d2 ++ lits "-" ++ d2 ++ lits " " ++ d2 ++ lits ":" ++ d2
  ++ lits ":" ++ d2.

(** A regex tried at the start of a suffix of the text, with leftmost-first
    semantics: [Some k] is a match of [k] bytes. None of the regexes below
    matches the empty string. *)
Definition matcher := str -> option nat.

(** [ITEM_SEP_RE = "## \d{4}-\d{2}-\d{2} \d{2}:\d{2}:\d{2}"] *)
Definition item_sep_pat : list atom := lits "## " ++ timestamp_pat.

Definition item_sep_at : matcher := fun t =>
  if fixed_prefix item_sep_pat t then Some (length item_sep_pat) else None.

(** [INLINE_HEADER_RE = "\[\d{4}-..\.\d{3}\] \[\w+\]\s*"]: [\w+] stops at
    the first non-word byte, which must be [']'], and [\s*] is greedy. *)
Definition header_stamp_pat : list atom :=
  lits "[" ++ timestamp_pat ++ lits "." ++ [Digit; Digit; Digit] ++ lits "] [".

Definition inline_header_at : matcher := fun t =>
  if fixed_prefix header_stamp_pat t then
    let (w, rest1) := span is_word (skipn (length header_stamp_pat) t) in
    match w, rest1 with
    | _ :: _, c :: rest2 =>
        if Ascii.eqb c "]"%char
        then Some (length header_stamp_pat + length w + 1 + length (fst (span is_ws rest2)))
        else None
    | _, _ => None
    end
  else None.

(** [LEADING_HEADER_RE] is [^] followed by the same and [\n?]; the greedy
    [\s*] has already consumed every newline, so [\n?] matches empty. *)
Definition leading_header_at : matcher := inline_header_at.

(** [Regex::find_iter]: successive non-overlapping leftmost-first matches,
    as [(start, end)] byte ranges; [skip] counts the bytes of the last match
    still to pass over. *)
Fixpoint find_iter_aux (m : matcher) (t : str) (pos skip : nat) : list (nat * nat) :=
  match t with
  | [] => []
  | _ :: t' =>
      match skip with
      | S k => find_iter_aux m t' (S pos) k
      | O =>
          match m t with
          | Some (S k) => (pos, pos + S k) :: find_iter_aux m t' (S pos) k
          | _ => find_iter_aux m t' (S pos) 0
          end
      end
  end.

Definition find_iter (m : matcher) (t : str) : list (nat * nat) := find_iter_aux m t 0 0.

(** [Regex::replace_all(t, "")], scanning exactly as [find_iter]. *)
Fixpoint replace_all_aux (m : matcher) (t : str) (skip : nat) : str :=
  match t with
  | [] => []
  | c :: t' =>
      match skip with
      | S k => replace_all_aux m t' k
      | O =>
          match m t with
          | Some (S k) => replace_all_aux m t' k
          | _ => c :: replace_all_aux m t' 0
          end
      end
  end.

Definition replace_all_empty (m : matcher) (t : str) : str := replace_all_aux m t 0.

(** [(?i)] comparison of a literal with the text. *)
Fixpoint ci_prefix (p t : str) : bool :=
  match p, t with
  | [], _ => true
  | a :: p', c :: t' => ci_eq a c && ci_prefix p' t'
  | _ :: _, [] => false
  end.

(** [(?i)name\s*\(] *)
Definition call_at (name : str) : matcher := fun t =>
  if ci_prefix name t then
    let (sp, rest) := span is_ws (skipn (length name) t) in
    match rest with
    | c :: _ => if Ascii.eqb c "("%char then Some (length name + length sp + 1) else None
    | [] => None
    end
  else None.

(** [PAUSE_RE = "(?i)bef_effect_onpause_imp\s*\(|onpause"]: the first
    alternative is preferred at a given position. *)
Definition pause_at : matcher := fun t =>
  match call_at (s "bef_effect_onpause_imp") t with
  | Some k => Some k
  | None => if ci_prefix (s "onpause") t then Some 7 else None
  end.

(** [RESUME_RE = "(?i)bef_effect_onresume_imp\s*\("] *)
Definition resume_at : matcher := call_at (s "bef_effect_onresume_imp").

(** [split_header]'s [CONTENT_HEADER_RE]
    [^\[(?P<origin>[^\]]+)]\s*(?P<level>[A-Z]+)\s*\#\#\s*\[(?P<tag>[^\]]+)]\s*]
    followed by the group [msg] matching the rest ([.] under [(?s)]). Each greedy piece is followed by a byte it cannot match
    (']' after [[^\]]+], a non-space after [\s*], a non-letter after
    [[A-Z]+]), so backtracking never changes the captures: the regex is the
    deterministic scan below. *)
Definition not_rbracket (c : ascii) : bool := negb (Ascii.eqb c "]"%char).

Definition content_header (line : str) : option (str * str * str * str) :=
  match line with
  | c :: r =>
      if Ascii.eqb c "["%char then
        let (origin, r1) := span not_rbracket r in
        match origin, r1 with
        | _ :: _, _ :: r2 =>
            let (level, r4) := span is_upper (trim_start_by is_ws r2) in
            match level, trim_start_by is_ws r4 with
            | _ :: _, h1 :: h2 :: r6 =>
                if Ascii.eqb h1 "#"%char && Ascii.eqb h2 "#"%char then
                  match trim_start_by is_ws r6 with
                  | b :: r7 =>
                      if Ascii.eqb b "["%char then
                        let (tag, r8) := span not_rbracket r7 in
                        match tag, r8 with
                        | _ :: _, _ :: r9 => Some (origin, level, tag, trim_start_by is_ws r9)
                        | _, _ => None
                        end
                      else None
                  | [] => None
                  end
                else None
            | _, _ => None
            end
        | _, _ => None
        end
      else None
  | [] => None
  end.

(** [split_header]: identical in lazylog-dyeh and lazylog-parser. *)
Definition split_header (line : str) : str * str * str * str :=
  let line := trim_start_by (fun c => is_ws c || is_control c) line in
  match content_header line with
  | Some (o, l, t, m) => (trim o, trim l, trim t, trim m)
  | None => ([], [], [], trim line)
  end.

Definition strip_leading_header (t : str) : str :=
  match leading_header_at t with Some k => skipn k t | None => t end.

Definition remove_inline_headers (t : str) : str :=
  replace_all_empty inline_header_at t.

(** [remove_inline_headers(strip_leading_header(delta)).trim()] *)
Definition clean (delta : str) : str :=
  trim (remove_inline_headers (strip_leading_header delta)).

(** [ITEM_PARSE_RE]: anchored "## " and a timestamp (group 1), then [\s*]
    and the rest of the block (group 2, [.] matching newlines under [(?s)]). *)
Definition item_parse (block : str) : option (str * str) :=
  if fixed_prefix item_sep_pat block
  then Some (slice block 3 22, trim_start_by is_ws (skipn 22 block))
  else None.

(** [starts.windows(2)] *)
Fixpoint windows2 (l : list nat) : list (nat * nat) :=
  match l with
  | a :: ((b :: _) as l') => (a, b) :: windows2 l'
  | _ => []
  end.

(** The item windows of a body: the delimiter starts plus the sentinel. *)
Definition item_windows (body : str) : list (nat * nat) :=
  match map fst (find_iter item_sep_at body) with
  | [] => []
  | starts => windows2 (starts ++ [length body])
  end.

(** [slice::sort_by_key] (a stable sort). *)
Fixpoint insert_by {A} (key : A -> nat) (x : A) (l : list A) : list A :=
  match l with
  | [] => [x]
  | y :: l' => if key x <=? key y then x :: l else y :: insert_by key x l'
  end.

Fixpoint sort_by_key {A} (key : A -> nat) (l : list A) : list A :=
  match l with
  | [] => []
  | x :: l' => insert_by key x (sort_by_key key l')
  end.

End Text.


(* ===================================================================== *)
(** ** Structured reassembler of lazylog-dyeh (lazylog-dyeh/src/parser.rs) *)
(* ===================================================================== *)

Module Dyeh.
Import Text.

(** The [LogItem] built by [LogItem::new(time, level, origin, tag, content,
    raw_content)]; its [id] is a fresh UUID and is not modelled. *)
Record LogItem := mkItem {
  time : str; level : str; origin : str; tag : str; content : str; raw_content : str
}.

(** [MatchedEvent]: a byte range of the body and its synthetic item. *)
Definition range := (nat * nat)%type.

(** The start of the line holding byte [st]:
    [text[..s].rfind('\n').map_or(0, |p| p + 1)]. *)
Definition line_start (text : str) (st : nat) : nat :=
  match rfind_nl (firstn st text) with Some p => p + 1 | None => 0 end.

(** The end of the line holding the match end [e], past its newline:
    [e + text[e..].find('\n').map_or(text.len() - e, |p| p + 1)]. *)
Definition line_end (text : str) (e : nat) : nat :=
  e + match find_nl (skipn e text) with Some p => p + 1 | None => length text - e end.

(** The [for r in ranges] loop; [merged] is kept last-first. *)
Fixpoint merge_loop (merged : list range) (ranges : list range) : list range :=
  match ranges with
  | [] => rev merged
  | (rs, re) :: ranges' =>
      match merged with
      | (ls, le) :: merged' =>
          if rs <=? le + 1
          then merge_loop ((ls, Nat.max le re) :: merged') ranges'
          else merge_loop ((rs, re) :: merged) ranges'
      | [] => merge_loop [(rs, re)] ranges'
      end
  end.

Definition merge_ranges (ranges : list range) : list range := merge_loop [] ranges.

(** [PauseMatcher::pause_block_ranges] and [ResumeMatcher::resume_block_ranges]
    share this body, with their own regex. *)
Definition expanded_ranges (re : matcher) (text : str) : list range :=
  map (fun m => (line_start text (fst m), line_end text (snd m))) (find_iter re text).

Definition block_ranges (re : matcher) (text : str) : list range :=
  merge_ranges (sort_by_key fst (expanded_ranges re text)).

Definition pause_block_ranges (text : str) : list range := block_ranges pause_at text.
Definition resume_block_ranges (text : str) : list range := block_ranges resume_at text.

Definition event_item (label : string) : LogItem :=
  mkItem [] [] [] [] (s label) (s label).

Definition paused_item : LogItem := event_item "DYEH PAUSED".
Definition resumed_item : LogItem := event_item "DYEH RESUMED".

(** [EventMatcher::capture] of the two matchers. *)
Definition pause_capture (text : str) : list (range * LogItem) :=
  map (fun sp => (sp, paused_item)) (pause_block_ranges text).
Definition resume_capture (text : str) : list (range * LogItem) :=
  map (fun sp => (sp, resumed_item)) (resume_block_ranges text).

(** [MATCHERS = vec![PauseMatcher, ResumeMatcher]] *)
Definition matchers : list (str -> list (range * LogItem)) := [pause_capture; resume_capture].

(** Step 2 of [process_delta]: [(span.start, item)] for every event. *)
Definition special_events (body : str) : list (nat * LogItem) :=
  flat_map (fun capture => map (fun ev => (fst (fst ev), snd ev)) (capture body)) matchers.

Definition parse_structured (block : str) : option LogItem :=
  match item_parse block with
  | Some (ts, rest) => let raw := trim rest in Some (mkItem ts [] [] [] raw raw)
  | None => None
  end.

(** Step 3 of [process_delta]: the delimiter-based items at their starts. *)
Definition structured_items (body : str) : list (nat * LogItem) :=
  flat_map (fun w =>
    match parse_structured (slice body (fst w) (snd w)) with
    | Some it =>
        let '(o, l, t, msg) := split_header (content it) in
        [(fst w, mkItem (time it) l o t msg (raw_content it))]
    | None => []
    end) (item_windows body).

(** [process_delta] with the byte offsets of its entries (steps 1 to 4). *)
Definition process_delta_positioned (delta : str) : list (nat * LogItem) :=
  let body := clean delta in
  match body with
  | [] => []
  | _ => sort_by_key fst (special_events body ++ structured_items body)
  end.

Definition process_delta (delta : str) : list LogItem :=
  map snd (process_delta_positioned delta).

End Dyeh.

(* ===================================================================== *)
(** ** Structured reassembler of lazylog-parser (lazylog-parser/src/lib.rs) *)
(* ===================================================================== *)

Module LazyParser.
Import Text.

(** lazylog-framework's [LogItem]: [id] and [time] come from the UUID
    generator and the clock and are not modelled; [metadata] is the
    [HashMap] as an association list. *)
Record LogItem := mkItem {
  content : str; raw_content : str; metadata : list (string * str)
}.

(** [LogItem::new(content, raw_content)] *)
Definition new_item (c r : str) : LogItem := mkItem c r [].

(** [LogItem::with_metadata]: [HashMap::insert] replaces the key. *)
Definition with_metadata (it : LogItem) (k : string) (v : str) : LogItem :=
  mkItem (content it) (raw_content it)
         ((k, v) :: List.filter (fun kv => negb (String.eqb (fst kv) k)) (metadata it)).

(** [LogItem::get_metadata] *)
Definition get_metadata (it : LogItem) (k : string) : option str :=
  match find (fun kv => String.eqb (fst kv) k) (metadata it) with
  | Some kv => Some (snd kv)
  | None => None
  end.

Definition parse_structured (block : str) : option LogItem :=
  match item_parse block with
  | Some (_, rest) => let raw := trim rest in Some (new_item raw raw)
  | None => None
  end.

Definition is_emptyb (t : str) : bool := match t with [] => true | _ => false end.

(** The body of the [for win in starts.windows(2)] loop. *)
Definition window_item (body : str) (w : nat * nat) : option LogItem :=
  match parse_structured (slice body (fst w) (snd w)) with
  | Some it =>
      let '(origin, level, tag, msg) := split_header (content it) in
      let item := new_item msg (raw_content it) in
      let item := if negb (is_emptyb level) then with_metadata item "level" level else item in
      let item := if negb (is_emptyb origin) then with_metadata item "origin" origin else item in
      let item := if negb (is_emptyb tag) then with_metadata item "tag" tag else item in
      Some item
  | None => None
  end.

Definition process_delta (delta : str) : list LogItem :=
  let body := clean delta in
  match body with
  | [] => []
  | _ =>
      match find_iter item_sep_at body with
      | [] => []
      | _ =>
          flat_map (fun w => match window_item body w with Some it => [it] | None => [] end)
                   (item_windows body)
      end
  end.

End LazyParser.


(* ===================================================================== *)
(** ** Android decoders (lazylog-android/src/parser.rs) *)
(* ===================================================================== *)

Module Android.
Import Text LazyParser.

Definition nl : ascii := "010"%char.
Definition cr : ascii := "013"%char.

(** [str::split('\n')] *)
Fixpoint split_nl (t : str) : list str :=
  match t with
  | [] => [[]]
  | c :: t' =>
      if Ascii.eqb c nl then [] :: split_nl t'
      else match split_nl t' with
           | l :: ls => (c :: l) :: ls
           | [] => [[c]]
           end
  end.

(** [str::lines]: pieces ended by ['\n'], each losing one ['\r'] before its
    ['\n']; the text after the last ['\n'] is a line when non-empty and keeps
    a bare ['\r']. *)
Definition strip_cr (l : str) : str :=
  match rev l with
  | c :: r => if Ascii.eqb c cr then rev r else l
  | [] => l
  end.

Fixpoint lines_of (pieces : list str) : list str :=
  match pieces with
  | [] => []
  | [last] => match last with [] => [] | _ => [last] end
  | l :: rest => strip_cr l :: lines_of rest
  end.

Definition lines (t : str) : list str := lines_of (split_nl t).

(** [lines.join("\n")] *)
Fixpoint join_nl (ls : list str) : str :=
  match ls with
  | [] => []
  | [l] => l
  | l :: rest => l ++ nl :: join_nl rest
  end.

(** [str::find] with a char predicate. *)
Fixpoint find_by (p : ascii -> bool) (t : str) : option nat :=
  match t with
  | [] => None
  | c :: t' => if p c then Some 0 else option_map S (find_by p t')
  end.

Definition starts_with_char (t : str) (c : ascii) : bool :=
  match t with d :: _ => Ascii.eqb c d | [] => false end.

(** The byte length of the [char::is_whitespace] char a UTF-8 text starts
    with, 0 when it starts with another char or is empty.  The whitespace
    chars are tab, LF, VT, FF, CR and space (1 byte), U+0085 and U+00A0
    (2 bytes), U+1680, U+2000 to U+200A, U+2028, U+2029, U+202F, U+205F and
    U+3000 (3 bytes).  No byte of another char matches. *)
Definition ws_len (t : str) : nat :=
  match t with
  | [] => 0
  | b1 :: t1 =>
      if is_ws b1 then 1 else
      match t1 with
      | [] => 0
      | b2 :: t2 =>
          let n1 := code b1 in
          let n2 := code b2 in
          if (n1 =? 194) && ((n2 =? 133) || (n2 =? 160)) then 2 else
          match t2 with
          | [] => 0
          | b3 :: _ =>
              let n3 := code b3 in
              if ((n1 =? 225) && (n2 =? 154) && (n3 =? 128)) ||
                 ((n1 =? 226) && (n2 =? 128) &&
                  (((128 <=? n3) && (n3 <=? 138)) || (n3 =? 168) || (n3 =? 169) ||
                   (n3 =? 175))) ||
                 ((n1 =? 226) && (n2 =? 129) && (n3 =? 159)) ||
                 ((n1 =? 227) && (n2 =? 128) && (n3 =? 128))
              then 3 else 0
          end
      end
  end.

(** [t.rfind(|c: char| c.is_whitespace())]: the byte offset of the last
    whitespace char, with its byte length; [i] is the offset of [t] and
    [found] the last one seen before it. *)
Fixpoint rfind_ws_from (t : str) (i : nat) (found : option (nat * nat)) : option (nat * nat) :=
  match t with
  | [] => found
  | _ :: t' =>
      rfind_ws_from t' (S i) (match ws_len t with 0 => found | n => Some (i, n) end)
  end.

Definition rfind_ws (t : str) : option (nat * nat) := rfind_ws_from t 0 None.

(** [str::trim_start]: drops the leading whitespace chars; [skip] counts
    the bytes of the whitespace char being dropped. *)
Fixpoint trim_start_ws_from (t : str) (skip : nat) : str :=
  match t with
  | [] => []
  | _ :: t' =>
      match skip with
      | S k => trim_start_ws_from t' k
      | 0 => match ws_len t with 0 => t | S k => trim_start_ws_from t' k end
      end
  end.

(** The byte offset just after the last char of [t] that is not
    whitespace ([i] is the offset of [t], [last] the value so far). *)
Fixpoint content_end (t : str) (i skip last : nat) : nat :=
  match t with
  | [] => last
  | _ :: t' =>
      match skip with
      | S k => content_end t' (S i) k last
      | 0 => match ws_len t with
             | 0 => content_end t' (S i) 0 (S i)
             | S k => content_end t' (S i) k last
             end
      end
  end.

(** [str::trim] on UTF-8 text: [trim_end] after [trim_start]. *)
Definition trim_ws (t : str) : str :=
  let u := trim_start_ws_from t 0 in
  firstn (content_end u 0 0 0) u.

Definition ends_with_char (t : str) (c : ascii) : bool := starts_with_char (rev t) c.

(** [AndroidParser::parse] ([-v long] format); [None] is the [None] of an
    empty log or a panic. *)
Definition android_parse (raw_log : str) : option LogItem :=
  match lines raw_log with
  | [] => None
  | first_line :: rest_lines =>
      if negb (starts_with_char first_line "["%char && ends_with_char first_line "]"%char)
      then Some (new_item raw_log raw_log)
      else
        let header := slice first_line 1 (length first_line - 1) in
        match find_by (fun c => Ascii.eqb c "/"%char) header with
        | None => Some (new_item raw_log raw_log)
        | Some slash_pos =>
            (* [pos + 1] is a char boundary only after a one-byte
               whitespace char; otherwise [header[level_start..slash_pos]]
               panics. *)
            match rfind_ws (firstn slash_pos header) with
            | Some (_, S (S _)) => None
            | found =>
                let level_start := match found with Some (p, _) => p + 1 | None => 0 end in
                let level := trim_ws (slice header level_start slash_pos) in
                let tag := trim_ws (skipn (slash_pos + 1) header) in
                let message := match rest_lines with [] => [] | _ => join_nl rest_lines end in
                Some (with_metadata (with_metadata (new_item message raw_log) "level" level)
                                    "tag" tag)
            end
        end
  end.

(** [STRUCTURED_MARKER_RE.is_match] (the same regex as [ITEM_SEP_RE]). *)
Definition has_structured_marker (t : str) : bool :=
  match find_iter item_sep_at t with [] => false | _ => true end.

Definition str_eqb (a b : str) : bool := if list_eq_dec ascii_dec a b then true else false.

(** [AndroidEffectParser::parse] *)
Definition android_effect_parse (raw_log : str) : option LogItem :=
  match android_parse raw_log with
  | None => None
  | Some parsed =>
      let tag := match get_metadata parsed "tag" with Some t => t | None => [] end in
      let is_allowed_tag := str_eqb tag (s "[Effect]") || str_eqb tag (s "CKE-Editor") in
      if negb is_allowed_tag then None
      else if negb (has_structured_marker raw_log) then None
      else
        match LazyParser.process_delta (content parsed) with
        | item :: _ => Some item
        | [] => None
        end
  end.

(** [AndroidParser::shorten_content]: the first line that is not blank
    after trimming, else the whole content. *)
Definition shorten_content (content : str) : str :=
  match find (fun line => negb (is_emptyb line)) (map trim_ws (split_nl content)) with
  | Some line => line
  | None => content
  end.





(** [AndroidParser::max_detail_level] *)
Definition max_detail_level : nat := 4.

End Android.


(* ===================================================================== *)
(** ** iOS syslog parser (lazylog-ios/src/parser.rs) *)
(* ===================================================================== *)

Module Ios.
Import Text LazyParser Android.

(** [str::splitn(n + 1, sep)] once [n] pieces may still be split off. *)
Fixpoint splitn_aux (n : nat) (sep : ascii) (t : str) : list str :=
  match n with
  | 0 => [t]
  | S n' =>
      match find_by (fun c => Ascii.eqb c sep) t with
      | None => [t]
      | Some i => firstn i t :: splitn_aux n' sep (skipn (i + 1) t)
      end
  end.

(** [str::splitn(n, sep)] *)
Definition splitn (n : nat) (sep : ascii) (t : str) : list str :=
  match n with 0 => [] | S n' => splitn_aux n' sep t end.

(** [str::starts_with] and [str::find] with a string pattern. *)
Fixpoint is_prefix (p t : str) : bool :=
  match p, t with
  | [], _ => true
  | a :: p', c :: t' => Ascii.eqb a c && is_prefix p' t'
  | _ :: _, [] => false
  end.

Fixpoint find_sub (p t : str) : option nat :=
  match t with
  | [] => if is_prefix p t then Some 0 else None
  | _ :: t' => if is_prefix p t then Some 0 else option_map S (find_sub p t')
  end.

(** [s.split(c).next()]: the text before the first [c]. *)
Definition before_char (c : ascii) (t : str) : str :=
  match find_by (fun d => Ascii.eqb d c) t with Some i => firstn i t | None => t end.

(** [IosFullParser::parse]; [None] is the panic of [&level_and_content[start + 1..end]]
    when [end < start + 1]. *)
Definition ios_full_parse (raw_log : str) : option LogItem :=
  match splitn 5 " "%char raw_log with
  | _ :: _ :: _ :: part3 :: level_and_content :: _ =>
      let tag := before_char "("%char (before_char "["%char part3) in
      let level_content :=
        match find_by (fun c => Ascii.eqb c "<"%char) level_and_content with
        | Some start =>
            match find_sub (s ">:") level_and_content with
            | Some end_ =>
                if end_ <? start + 1 then None
                else Some (slice level_and_content (start + 1) end_,
                           trim (skipn (end_ + 2) level_and_content))
            | None => Some ([], level_and_content)
            end
        | None => Some ([], level_and_content)
        end in
      match level_content with
      | None => None
      | Some (level, content) =>
          let item := new_item content raw_log in
          let item := if negb (is_emptyb level) then with_metadata item "level" level else item in
          let item := if negb (is_emptyb tag) then with_metadata item "tag" tag else item in
          Some item
      end
  | _ => Some (new_item raw_log raw_log)
  end.

End Ios.


(* ===================================================================== *)
(** ** Hand-off queue (lazylog-framework/src/provider/mod.rs) *)
(* ===================================================================== *)

(** The [HeapRb] ring buffer shared by the provider thread (producer) and
    the app (consumer), with ringbuf's documented [try_push]/[try_pop]:
    [try_push] appends when there is room and otherwise returns the item in
    [Err] without touching the buffer; neither operation waits. *)
Module HandOff.

Section Queue.
Context {A : Type}.

Record ring := mkRing { capacity : nat; items : list A }.

Inductive push_result := Pushed (r : ring) | Full (item : A).

(** [Producer::try_push] *)
Definition try_push (r : ring) (x : A) : push_result :=
  if length (items r) <? capacity r then Pushed (mkRing (capacity r) (items r ++ [x]))
  else Full x.

(** [Consumer::try_pop] *)
Definition try_pop (r : ring) : option A * ring :=
  match items r with
  | [] => (None, r)
  | x :: rest => (Some x, mkRing (capacity r) rest)
  end.

(** The buffer after one [try_push]: on [Err] the item is dropped (the
    thread only logs "Ring buffer full, dropping log"). *)
Definition after_push (r : ring) (x : A) : ring :=
  match try_push r x with Pushed r' => r' | Full _ => r end.

(** One poll of [spawn_provider_thread]'s loop:
    [for raw_log in raw_logs { if let Some(item) = parser.parse(&raw_log)
    && producer.try_push(item).is_err() { .. } }]; returns the buffer and
    the dropped items. *)
Fixpoint push_polled {R : Type} (parse : R -> option A) (r : ring) (raw_logs : list R)
    : ring * list A :=
  match raw_logs with
  | [] => (r, [])
  | raw :: rest =>
      match parse raw with
      | None => push_polled parse r rest
      | Some item =>
          match try_push r item with
          | Pushed r' => push_polled parse r' rest
          | Full x => let '(r'', dropped) := push_polled parse r rest in (r'', x :: dropped)
          end
      end
  end.

(** The drain at the top of [App::update_logs]:
    [while let Some(log) = self.log_consumer.try_pop() { new_logs.push(log) }].
    Each pop shortens the buffer, so [length (items r) + 1] rounds suffice. *)
Fixpoint drain_fuel (fuel : nat) (r : ring) : list A * ring :=
  match fuel with
  | 0 => ([], r)
  | S fuel' =>
      match try_pop r with
      | (Some log, r') => let '(new_logs, r'') := drain_fuel fuel' r' in (log :: new_logs, r'')
      | (None, r') => ([], r')
      end
  end.

Definition drain (r : ring) : list A * ring := drain_fuel (S (length (items r))) r.

(** Producer and consumer steps, interleaved in any order. *)
Inductive step : ring -> ring -> Prop :=
| step_push r x : step r (after_push r x)
| step_pop r : step r (snd (try_pop r)).

Inductive steps : ring -> ring -> Prop :=
| steps_refl r : steps r r
| steps_next r1 r2 r3 : step r1 r2 -> steps r2 r3 -> steps r1 r3.

End Queue.

End HandOff.


(* ===================================================================== *)
(** ** Detail levels (lazylog-framework/src/provider/log_item.rs) *)
(* ===================================================================== *)

(** [LogDetailLevel = u8], as a natural number below 256. *)
Module Detail.

(** [level.saturating_add(1).min(max)] *)
Definition increment_detail_level (level max : nat) : nat :=
  Nat.min (Nat.min (level + 1) 255) max.

(** [level.saturating_sub(1)] *)
Definition decrement_detail_level (level : nat) : nat := level - 1.

End Detail.

(* ===================================================================== *)
(** ** The app's use of the filter engine (lazylog-framework/src/app) *)
(* ===================================================================== *)

(** The part of [App] that the filter engine sees: the accumulated logs,
    the filter input (with its leading '/'), the detail level, the engine
    and the displayed indices ([displaying_logs]). *)
Module App.
Import Filter Detail.

Section App.
Context {Char Item : Type}.
Context (char_eq_dec : forall a b : Char, {a = b} + {a <> b}).
Context (cs : Casing Char).
Context (par_split : nat -> split).
(** The character '/'. *)
Context (slash : Char).

Record AppState := mkApp {
  raw_logs : list Item;
  filter_input : list Char;
  detail_level : nat;
  filter_engine : @FilterEngine Char Item;
  displaying_logs : list nat
}.

(** [App::get_filter_query]: the input after its leading '/', if any. *)
Definition get_filter_query (filter_input : list Char) : list Char :=
  match filter_input with
  | c :: (_ :: _) as rest => if char_eq_dec c slash then rest else []
  | _ => []
  end.

(** [value.trim_start_matches('/')] *)
Fixpoint trim_start_slashes (value : list Char) : list Char :=
  match value with
  | c :: rest => if char_eq_dec c slash then trim_start_slashes rest else value
  | [] => []
  end.

(** The [initial_filter_input] computed by [App::new]. *)
Definition initial_filter_input (initial_filter : option (list Char)) : list Char :=
  match initial_filter with
  | Some value =>
      match trim_start_slashes value with
      | [] => []
      | v => slash :: v
      end
  | None => []
  end.

(** [App::new]: an empty log list, the engine with the parser as
    formatter, detail level 1. *)
Definition app_new (parser : @formatter Char Item) (initial_filter : option (list Char)) : AppState :=
  mkApp [] (initial_filter_input initial_filter) 1
        (set_formatter (new_engine None) parser) [].

Local Abbreviation ffilter := (@filter Char Item char_eq_dec cs par_split).
Local Abbreviation fnew := (@filter_new_logs Char Item char_eq_dec cs par_split).

(** [App::rebuild_filtered_list] (the filtering part of [apply_filter]). *)
Definition rebuild_filtered_list (a : AppState) : option AppState :=
  match ffilter (filter_engine a) (raw_logs a) (get_filter_query (filter_input a))
                (detail_level a) with
  | Some (filtered_indices, st) =>
      Some (mkApp (raw_logs a) (filter_input a) (detail_level a) st filtered_indices)
  | None => None
  end.

(** [App::update_logs], given the items drained from the ring buffer. *)
Definition update_logs (a : AppState) (new_logs : list Item) : option AppState :=
  match new_logs with
  | [] => Some a
  | _ =>
      let old_raw_count := length (raw_logs a) in
      let raw := raw_logs a ++ new_logs in
      match fnew (filter_engine a) raw old_raw_count (get_filter_query (filter_input a))
                 (detail_level a) with
      | Some (filtered_indices, st) =>
          Some (mkApp raw (filter_input a) (detail_level a) st filtered_indices)
      | None => None
      end
  end.

(** The app's operations that touch the logs, the query or the detail level. *)
Inductive event :=
| UpdateLogs (new_logs : list Item)   (** [update_logs] *)
| EditFilter (input : list Char)        (** a change of [filter_input], then [apply_filter] *)
| DetailDown                          (** key '[' *)
| DetailUp (max : nat)                (** key ']' with [parser.max_detail_level()] *)
| ClearLogs.                          (** [clear_logs] *)

Definition app_step (a : AppState) (ev : event) : option AppState :=
  match ev with
  | UpdateLogs new_logs => update_logs a new_logs
  | EditFilter input =>
      rebuild_filtered_list
        (mkApp (raw_logs a) input (detail_level a) (filter_engine a) (displaying_logs a))
  | DetailDown =>
      rebuild_filtered_list
        (mkApp (raw_logs a) (filter_input a) (decrement_detail_level (detail_level a))
               (reset (filter_engine a)) (displaying_logs a))
  | DetailUp max =>
      rebuild_filtered_list
        (mkApp (raw_logs a) (filter_input a) (increment_detail_level (detail_level a) max)
               (reset (filter_engine a)) (displaying_logs a))
  | ClearLogs =>
      rebuild_filtered_list
        (mkApp [] (filter_input a) (detail_level a) (reset (filter_engine a))
               (displaying_logs a))
  end.

Fixpoint app_run (a : AppState) (evs : list event) : option AppState :=
  match evs with
  | [] => Some a
  | ev :: evs' =>
      match app_step a ev with
      | Some a' => app_run a' evs'
      | None => None
      end
  end.

End App.
End App.

(** A concrete engine: ASCII text, where [str::to_lowercase] is the ASCII
    lowercase map, items whose searchable text is the item itself. *)
Module FilterInstance.
Import Filter.

Definition lower_ascii (c : ascii) : list ascii :=
  let n := nat_of_ascii c in
  if (65 <=? n) && (n <=? 90) then [ascii_of_nat (n + 32)] else [c].

(** ASCII has no 'Σ', so the sigma fields are never read; [Cased] holds
    for the letters, [Case_Ignorable] for ' . : ^ and `. *)
Definition ascii_casing : Casing ascii :=
  mkCasing lower_ascii (fun _ => false) "s"%char "s"%char
    (fun c => let n := nat_of_ascii c in
              (n =? 39) || (n =? 46) || (n =? 58) || (n =? 94) || (n =? 96))
    (fun c => let n := nat_of_ascii c in
              ((65 <=? n) && (n <=? 90)) || ((97 <=? n) && (n <=? 122))).

Definition text_formatter : @formatter ascii (list ascii) := fun it _ => it.

Definition s (x : string) : list ascii := list_ascii_of_string x.

Definition ffilter := @filter ascii (list ascii) ascii_dec ascii_casing (fun _ => Seq).
Definition fnew := @filter_new_logs ascii (list ascii) ascii_dec ascii_casing (fun _ => Seq).

Definition engine0 : @FilterEngine ascii (list ascii) := new_engine (Some text_formatter).

(** The engine after filtering a different entry list for "a": its cache
    holds query "a" with result [0]. *)
Definition stale_engine : @FilterEngine ascii (list ascii) :=
  match ffilter engine0 [s "a"] (s "a") 0 with
  | Some (_, st) => st
  | None => engine0
  end.

Definition entries : list (list ascii) := [s "zz"; s "ab"].

End FilterInstance.

(** A second engine over Unicode code points, with the part of the Unicode
    tables for ASCII and the basic Greek letters: A-Z and Α-Ω lower by
    adding 32 (U+03A3 'Σ' to U+03C3 'σ'), those letters and their lowercase
    forms are cased, and ' . : ^ ` are case-ignorable. *)
Module UnicodeInstance.
Import Filter.

Definition lower_code (c : nat) : list nat :=
  if ((65 <=? c) && (c <=? 90)) || ((913 <=? c) && (c <=? 937) && negb (c =? 930))
  then [c + 32] else [c].

Definition cased_code (c : nat) : bool :=
  ((65 <=? c) && (c <=? 90)) || ((97 <=? c) && (c <=? 122)) ||
  ((913 <=? c) && (c <=? 937) && negb (c =? 930)) || ((945 <=? c) && (c <=? 969)).

Definition unicode_casing : Casing nat :=
  mkCasing lower_code (fun c => c =? 931) 963 962
    (fun c => (c =? 39) || (c =? 46) || (c =? 58) || (c =? 94) || (c =? 96))
    cased_code.

Definition text_formatter : @formatter nat (list nat) := fun it _ => it.

Definition ffilter := @filter nat (list nat) Nat.eq_dec unicode_casing (fun _ => Seq).
Definition fnew := @filter_new_logs nat (list nat) Nat.eq_dec unicode_casing (fun _ => Seq).

Definition engine0 : @FilterEngine nat (list nat) := new_engine (Some text_formatter).

(** "aσb", "aς", "zz"; and the queries "aΣ", "b". *)
Definition a_sigma_b : list nat := [97; 963; 98].
Definition a_final_sigma : list nat := [97; 962].
Definition zz : list nat := [122; 122].
Definition q_a_sigma : list nat := [97; 931].
Definition q_b : list nat := [98].

End UnicodeInstance.

(* ===================================================================== *)
(** * Proofs *)
(* ===================================================================== *)

Module FilterFacts.
Import Filter.

Section Facts.
Context {Char Item : Type}.
Context (char_eq_dec : forall a b : Char, {a = b} + {a <> b}).
Context (cs : Casing Char).
Context (par_split : nat -> split).

Local Abbreviation starts_with := (starts_with char_eq_dec).
Local Abbreviation contains := (contains char_eq_dec).
Local Abbreviation lower := (to_lowercase cs).
Local Abbreviation fseq := (@filter_sequential Char Item char_eq_dec cs).
Local Abbreviation fpar := (@filter_parallel Char Item char_eq_dec cs).
Local Abbreviation findices := (@filter_indices Char Item char_eq_dec cs par_split).
Local Abbreviation ffilter := (@filter Char Item char_eq_dec cs par_split).
Local Abbreviation fnew := (@filter_new_logs Char Item char_eq_dec cs par_split).
Local Abbreviation selected := (@selected Char Item char_eq_dec cs).
Local Abbreviation matches := (@matches Char Item char_eq_dec cs).
Local Abbreviation cache_valid := (@cache_valid Char Item char_eq_dec cs).

Lemma starts_with_spec (s p : list Char) :
  starts_with s p = true <-> exists b, s = p ++ b.
Proof.
  revert s; induction p as [|c p IH]; intros s; simpl.
  - split; [intros _; exists s; reflexivity | reflexivity].
  - destruct s as [|d s].
    + split; [discriminate | intros [b Hb]; discriminate].
    + destruct (char_eq_dec c d) as [->|Hne].
      * rewrite IH; split; intros [b Hb]; exists b; [now subst | now injection Hb].
      * split; [discriminate | intros [b Hb]; injection Hb; intros; congruence].
Qed.

Lemma contains_spec (s p : list Char) :
  contains s p = true <-> exists a b, s = a ++ p ++ b.
Proof.
  induction s as [|c s IH]; simpl.
  - rewrite orb_false_r, starts_with_spec; split.
    + intros [b Hb]; exists [], b; exact Hb.
    + intros [a [b Hab]]; destruct a; [exists b; exact Hab | discriminate].
  - rewrite orb_true_iff, starts_with_spec, IH; split.
    + intros [[b Hb] | [a [b Hab]]].
      * exists [], b; exact Hb.
      * exists (c :: a), b; rewrite Hab; reflexivity.
    + intros [a [b Hab]]; destruct a as [|c' a].
      * left; exists b; exact Hab.
      * right; exists a, b; injection Hab; auto.
Qed.

Lemma contains_app_l (s p q : list Char) :
  contains s (p ++ q) = true -> contains s p = true.
Proof.
  rewrite !contains_spec; intros [a [b Hab]]; exists a, (q ++ b).
  rewrite Hab, <- app_assoc; reflexivity.
Qed.

Local Abbreviation no_sigma := (forallb (fun c => negb (is_capital_sigma cs c))).





(** [test_index] never panics inside the list; as a total predicate: *)
Definition hit (raw_logs : list Item) pat d (f : formatter) (i : nat) : bool :=
  match test_index char_eq_dec cs raw_logs pat d f i with
  | Some b => b | None => false
  end.

Lemma filter_sequential_spec raw_logs ss pat d f :
  fseq raw_logs ss pat d f =
  if forallb (fun i => i <? length raw_logs) ss
  then Some (List.filter (hit raw_logs pat d f) ss) else None.
Proof.
  induction ss as [|i ss IH]; simpl; [reflexivity|].
  unfold hit, test_index at 1 2.
  destruct (nth_error raw_logs i) eqn:Hn.
  - assert (Hi : (i <? length raw_logs) = true)
      by (apply Nat.ltb_lt, nth_error_Some; congruence).
    rewrite Hi, IH; simpl.
    destruct (forallb _ ss); reflexivity.
  - assert (Hi : (i <? length raw_logs) = false)
      by (apply Nat.ltb_ge, nth_error_None; exact Hn).
    rewrite Hi; reflexivity.
Qed.

(** The parallel path computes exactly what the sequential path computes,
    for every way the worker pool splits the search space. *)
Lemma filter_parallel_sequential sp raw_logs ss pat d f :
  fpar sp raw_logs ss pat d f = fseq raw_logs ss pat d f.
Proof.
  revert ss; induction sp as [|mid l IHl r IHr]; intros ss; simpl; [reflexivity|].
  rewrite IHl, IHr, !filter_sequential_spec.
  assert (Hss : ss = firstn mid ss ++ skipn mid ss) by (symmetry; apply firstn_skipn).
  remember (firstn mid ss) as a; remember (skipn mid ss) as b.
  rewrite Hss, forallb_app.
  destruct (forallb _ a), (forallb _ b); simpl;
    try reflexivity.
  rewrite filter_app; reflexivity.
Qed.

Lemma filter_indices_sequential raw_logs ss pat d f :
  findices raw_logs ss pat d f = fseq raw_logs ss pat d f.
Proof.
  unfold filter_indices; destruct (uses_parallel ss);
    [apply filter_parallel_sequential | reflexivity].
Qed.

Lemma hit_matches raw_logs q d f i :
  hit raw_logs (lower q) d f i = matches raw_logs q d f i.
Proof. unfold hit, test_index, Filter.matches; destruct (nth_error _ _); reflexivity. Qed.

Lemma forallb_range n : forallb (fun i => i <? n) (range n) = true.
Proof.
  apply forallb_forall; intros i Hi; apply in_seq in Hi; apply Nat.ltb_lt; lia.
Qed.

Lemma filter_sequential_range raw_logs q d f :
  fseq raw_logs (range (length raw_logs)) (lower q) d f = Some (selected raw_logs q d f).
Proof.
  rewrite filter_sequential_spec, forallb_range; f_equal.
  apply filter_ext; intros i; apply hit_matches.
Qed.

Lemma filter_filter_implied {A} (g h : A -> bool) (l : list A) :
  (forall x, g x = true -> h x = true) ->
  List.filter g (List.filter h l) = List.filter g l.
Proof.
  intros Hgh; induction l as [|x l IH]; simpl; [reflexivity|].
  destruct (h x) eqn:Hh; simpl.
  - destruct (g x); rewrite IH; reflexivity.
  - destruct (g x) eqn:Hg; [rewrite (Hgh x Hg) in Hh; discriminate | exact IH].
Qed.

Lemma matches_extend raw_logs q s d f i :
  (exists t, lower (q ++ s) = lower q ++ t) ->
  matches raw_logs (q ++ s) d f i = true -> matches raw_logs q d f i = true.
Proof.
  intros [t Ht]; unfold Filter.matches; destruct (nth_error _ _); [|discriminate].
  rewrite Ht; apply contains_app_l.
Qed.

Lemma selected_in_range raw_logs q d f :
  forallb (fun i => i <? length raw_logs) (selected raw_logs q d f) = true.
Proof.
  apply forallb_forall; intros i Hi.
  apply filter_In in Hi as [Hi _]; apply in_seq in Hi; apply Nat.ltb_lt; lia.
Qed.

(** With a valid cache, a non-empty query gives the full-scan selection,
    and the new cache holds it. *)
Lemma filter_valid raw_logs d st q f :
  cache_valid raw_logs d st -> fmt st = Some f -> q <> [] ->
  ffilter st raw_logs q d =
  Some (selected raw_logs q d f, mkEngine q (selected raw_logs q d f) (Some f)).
Proof.
  intros Hv Hf Hq; unfold Filter.filter.
  destruct q as [|c q']; [congruence|]; simpl is_empty; cbv iota.
  rewrite Hf; cbv zeta.
  rewrite filter_indices_sequential.
  destruct (negb (is_empty (previous_query st)) && starts_with (c :: q') (previous_query st)
            && negb match previous_results st with [] => true | _ => false end) eqn:Hc.
  - apply andb_true_iff in Hc as [Hc Hr]; apply andb_true_iff in Hc as [He Hs].
    apply starts_with_spec in Hs as [sfx Hsfx].
    destruct Hv as [[Hpq Hpr] | [Hpq [Hst [f' [Hf' Hpr]]]]].
    + rewrite Hpq in He; discriminate.
    + rewrite Hf in Hf'; injection Hf' as <-.
      rewrite Hpr, filter_sequential_spec, selected_in_range.
      unfold Filter.selected.
      rewrite filter_filter_implied.
      * f_equal; f_equal; [|f_equal]; apply filter_ext; intros i; apply hit_matches.
      * intros i; rewrite hit_matches, Hsfx; apply matches_extend, Hst.
  - rewrite filter_sequential_range; reflexivity.
Qed.

End Facts.
End FilterFacts.

Module FilterClaims.
Import Filter FilterFacts.

Section Claims.
Context {Char Item : Type}.
Context (char_eq_dec : forall a b : Char, {a = b} + {a <> b}).
Context (cs : Casing Char).
Context (par_split : nat -> split).

Local Abbreviation fseq := (@filter_sequential Char Item char_eq_dec cs).
Local Abbreviation fpar := (@filter_parallel Char Item char_eq_dec cs).
Local Abbreviation ffilter := (@filter Char Item char_eq_dec cs par_split).
Local Abbreviation fnew := (@filter_new_logs Char Item char_eq_dec cs par_split).
Local Abbreviation selected := (@selected Char Item char_eq_dec cs).
Local Abbreviation matches := (@matches Char Item char_eq_dec cs).
Local Abbreviation cache_valid := (@cache_valid Char Item char_eq_dec cs).

(** What a call returns on a valid cache. *)
Definition expected (fo : option (@formatter Char Item)) (raw_logs : list Item)
    (q : list Char) (d : nat) : list nat :=
  if is_empty q then range (length raw_logs)
  else match fo with None => range (length raw_logs) | Some f => selected raw_logs q d f end.

Lemma filter_expected raw_logs d st q :
  cache_valid raw_logs d st ->
  exists st', ffilter st raw_logs q d = Some (expected (fmt st) raw_logs q d, st').
Proof.
  intros Hv; unfold expected.
  destruct q as [|c q']; simpl is_empty; cbv iota.
  - eexists; reflexivity.
  - destruct (fmt st) as [f|] eqn:Hf.
    + eexists; apply filter_valid; [exact Hv | exact Hf | discriminate].
    + eexists; unfold Filter.filter; simpl is_empty; cbv iota; rewrite Hf; reflexivity.
Qed.

Lemma expected_in_range fo raw_logs q d i :
  In i (expected fo raw_logs q d) -> In i (range (length raw_logs)).
Proof.
  unfold expected; destruct (is_empty q); [auto|].
  destruct fo; [|auto]. intros Hi; apply filter_In in Hi; tauto.
Qed.

(** C1 (amended): with caches that agree with the entries and the detail
    level (empty, or a prefix-stable query with exactly its full-scan
    result), and when lowering [q1] gives a prefix of lowering [q1 ++ sfx]
    (always so when [q1] has no 'Σ'), the result for [q1 ++ sfx] is a subset
    of the result for [q1]. *)
Theorem filter_monotone_valid_cache raw_logs d q1 sfx st1 st2 :
  cache_valid raw_logs d st1 -> cache_valid raw_logs d st2 -> fmt st1 = fmt st2 ->
  starts_with char_eq_dec (to_lowercase cs (q1 ++ sfx)) (to_lowercase cs q1) = true ->
  exists r1 r2 st1' st2',
    ffilter st1 raw_logs q1 d = Some (r1, st1') /\
    ffilter st2 raw_logs (q1 ++ sfx) d = Some (r2, st2') /\
    incl r2 r1.
Proof.
  intros H1 H2 Hf Hpre.
  apply starts_with_spec in Hpre.
  destruct (filter_expected raw_logs d st1 q1 H1) as [st1' E1].
  destruct (filter_expected raw_logs d st2 (q1 ++ sfx) H2) as [st2' E2].
  do 4 eexists; split; [exact E1|]; split; [exact E2|].
  rewrite <- Hf; intros i Hi.
  unfold expected at 1.
  destruct q1 as [|c q1']; simpl is_empty; cbv iota.
  - eapply expected_in_range; exact Hi.
  - unfold expected in Hi; simpl is_empty in Hi; cbv iota in Hi.
    destruct (fmt st1) as [f|]; [|exact Hi].
    apply filter_In in Hi as [Hin Hm]; apply filter_In; split; [exact Hin|].
    eapply matches_extend; [exact Hpre | exact Hm].
Qed.

Lemma selected_app raw_logs extra q d f :
  selected (raw_logs ++ extra) q d f =
  selected raw_logs q d f ++
  List.filter (matches (raw_logs ++ extra) q d f) (seq (length raw_logs) (length extra)).
Proof.
  unfold Filter.selected, range; rewrite length_app, seq_app, filter_app; simpl.
  f_equal; apply filter_ext_in; intros i Hi; apply in_seq in Hi.
  unfold Filter.matches; rewrite nth_error_app1 by lia; reflexivity.
Qed.

Lemma leb_app_nil {A} (l extra : list A) :
  (length (l ++ extra) <=? length l) = true -> extra = [].
Proof.
  rewrite length_app; intros Hl; apply Nat.leb_le in Hl.
  destruct extra; [reflexivity | simpl in Hl; lia].
Qed.

(** C2 (amended): on a valid cache, after [filter] for [q], appending
    entries and calling [filter_new_logs] gives what a fresh engine gives on
    the extended list (for a non-empty append or a non-empty query). *)
Theorem filter_new_logs_matches_fresh raw_logs extra q d st0 r1 st1 :
  cache_valid raw_logs d st0 ->
  ffilter st0 raw_logs q d = Some (r1, st1) ->
  (extra <> [] \/ q <> []) ->
  exists r st2 st3,
    fnew st1 (raw_logs ++ extra) (length raw_logs) q d = Some (r, st2) /\
    ffilter (new_engine (fmt st0)) (raw_logs ++ extra) q d = Some (r, st3).
Proof.
  intros Hv Hr1 Hne.
  destruct q as [|c q'].
  - (* empty query: the first call reset the cache *)
    unfold Filter.filter in Hr1; simpl in Hr1; injection Hr1 as <- <-.
    destruct Hne as [Hne | Hne]; [|congruence].
    unfold Filter.filter_new_logs; simpl.
    destruct (length (raw_logs ++ extra) <=? length raw_logs) eqn:Hl.
    + apply leb_app_nil in Hl; congruence.
    + do 3 eexists; split; reflexivity.
  - destruct (fmt st0) as [f|] eqn:Hf.
    + rewrite (filter_valid char_eq_dec cs par_split raw_logs d st0 _ f Hv Hf)
        in Hr1 by discriminate.
      injection Hr1 as <- <-.
      assert (Hfresh := filter_valid char_eq_dec cs par_split (raw_logs ++ extra) d
                          (new_engine (Some f)) (c :: q') f
                          (or_introl (conj eq_refl eq_refl)) eq_refl ltac:(discriminate)).
      unfold Filter.filter_new_logs; simpl previous_query.
      unfold str_eqb; destruct (list_eq_dec char_eq_dec (c :: q') (c :: q')) as [_|]; [|congruence].
      simpl negb; cbv iota.
      destruct (length (raw_logs ++ extra) <=? length raw_logs) eqn:Hl.
      * apply leb_app_nil in Hl; subst extra.
        rewrite app_nil_r in Hfresh |- *.
        do 3 eexists; split; [reflexivity | exact Hfresh].
      * simpl is_empty; cbv iota; simpl fmt; cbv iota zeta.
        rewrite filter_indices_sequential, filter_sequential_spec.
        replace (forallb _ _) with true.
        2:{ symmetry; apply forallb_forall; intros i Hi; apply in_seq in Hi.
            apply Nat.ltb_lt; lia. }
        rewrite (filter_ext _ _ (hit_matches char_eq_dec cs (raw_logs ++ extra) (c :: q') d f)).
        replace (length (raw_logs ++ extra) - length raw_logs) with (length extra)
          by (rewrite length_app; lia).
        simpl previous_results; rewrite <- selected_app.
        do 3 eexists; split; [reflexivity | exact Hfresh].
    + (* no formatter: the valid cache is empty *)
      destruct Hv as [[Hpq Hpr] | [_ [_ [f [Hf' _]]]]]; [|congruence].
      unfold Filter.filter in Hr1; simpl is_empty in Hr1; cbv iota in Hr1.
      rewrite Hf in Hr1; injection Hr1 as <- <-.
      unfold Filter.filter_new_logs; rewrite Hpq.
      unfold Filter.filter; simpl; rewrite Hf.
      do 3 eexists; split; reflexivity.
Qed.

Lemma filter_StronglySorted (g : nat -> bool) (l : list nat) :
  StronglySorted lt l -> StronglySorted lt (List.filter g l).
Proof.
  induction l as [|x l IH]; simpl; intros Hs; [constructor|].
  apply StronglySorted_inv in Hs as [Hs Hx].
  destruct (g x); [|auto].
  constructor; [auto|].
  apply Forall_forall; intros y Hy; apply filter_In in Hy as [Hy _].
  rewrite Forall_forall in Hx; auto.
Qed.

Lemma range_StronglySorted n : StronglySorted lt (range n).
Proof.
  unfold range; generalize 0; induction n as [|n IH]; intros k; simpl; constructor; [apply IH|].
  apply Forall_forall; intros y Hy; apply in_seq in Hy; lia.
Qed.

(** C8 (amended): the parallel path is taken exactly when the search space
    has more than 1000 candidates; for every split of the work the parallel
    path returns what the sequential path returns, namely the matching
    indices of the search space in their original (ascending) order. *)
Theorem filter_paths_agree (raw_logs : list Item) ss pat d f :
  StronglySorted lt ss ->
  (uses_parallel ss = true <-> 1000 < length ss) /\
  (forall sp, fpar sp raw_logs ss pat d f = fseq raw_logs ss pat d f) /\
  (forall r, fseq raw_logs ss pat d f = Some r ->
     StronglySorted lt r /\
     (forall i, In i r <->
        In i ss /\ test_index char_eq_dec cs raw_logs pat d f i = Some true)).
Proof.
  intros Hs; split; [unfold uses_parallel; apply Nat.ltb_lt|].
  split; [intros sp; apply filter_parallel_sequential|].
  intros r Hr; rewrite filter_sequential_spec in Hr.
  destruct (forallb _ ss) eqn:Hall; [|discriminate].
  injection Hr as <-; split; [apply filter_StronglySorted, Hs|].
  intros i; rewrite filter_In; unfold hit.
  rewrite forallb_forall in Hall.
  split; intros [Hi Ht]; split; auto.
  - destruct (test_index _ _ _ _ _ _ i) eqn:Hti; [congruence|].
    unfold test_index in Hti; specialize (Hall i Hi); apply Nat.ltb_lt, nth_error_Some in Hall.
    destruct (nth_error raw_logs i); congruence.
  - rewrite Ht; reflexivity.
Qed.

Local Abbreviation nfr := (@no_formatter_reachable Char Item char_eq_dec cs par_split).

Lemma filter_no_formatter st raw_logs q d r st' :
  fmt st = None -> previous_query st = [] ->
  ffilter st raw_logs q d = Some (r, st') -> fmt st' = None /\ previous_query st' = [].
Proof.
  intros Hf Hq; unfold Filter.filter.
  destruct (is_empty q).
  - intros H; injection H as _ <-; simpl; auto.
  - rewrite Hf; intros H; injection H as _ <-; auto.
Qed.

Lemma no_formatter_reachable_inv st :
  nfr st -> fmt st = None /\ previous_query st = [].
Proof.
  induction 1 as [| st raw_logs q d r st' _ [Hf Hq] Hr
                  | st raw_logs n q d r st' _ [Hf Hq] Hr | st _ [Hf Hq]].
  - split; reflexivity.
  - eapply filter_no_formatter; eauto.
  - unfold Filter.filter_new_logs in Hr.
    destruct (negb (str_eqb char_eq_dec q (previous_query st))).
    + eapply filter_no_formatter; eauto.
    + destruct (length raw_logs <=? n); [injection Hr as _ <-; auto|].
      destruct (is_empty q); [injection Hr as _ <-; auto|].
      rewrite Hf in Hr; injection Hr as _ <-; auto.
  - split; [exact Hf | reflexivity].
Qed.

(** C10: on an engine whose formatter was never set, [filter] and
    [filter_new_logs] return all indices for a non-empty query and leave the
    cached query and results unchanged. *)
Theorem no_formatter_returns_all st raw_logs q d :
  nfr st -> q <> [] ->
  ffilter st raw_logs q d = Some (range (length raw_logs), st) /\
  (forall old_count, fnew st raw_logs old_count q d = Some (range (length raw_logs), st)).
Proof.
  intros Hr Hq; destruct (no_formatter_reachable_inv st Hr) as [Hf Hpq].
  assert (Hfil : ffilter st raw_logs q d = Some (range (length raw_logs), st)).
  { unfold Filter.filter; destruct q; [congruence|]; simpl is_empty; cbv iota.
    rewrite Hf; reflexivity. }
  split; [exact Hfil|]; intros n.
  unfold Filter.filter_new_logs; rewrite Hpq.
  unfold str_eqb; destruct (list_eq_dec char_eq_dec q []) as [->|]; [congruence|].
  exact Hfil.
Qed.

End Claims.

(** The claims' witnesses and counterexamples, on the ASCII engine. *)
Import FilterInstance.

Lemma stale_engine_cache :
  previous_query stale_engine = s "a" /\ previous_results stale_engine = [0].
Proof. split; reflexivity. Qed.

(** The claim also fails for an engine whose cache came from another entry
    list: "a" selects nothing, then "ab" selects index 1. *)
Lemma filter_monotone_stale_cache :
  ffilter stale_engine entries (s "a") 0 =
    Some ([], mkEngine (s "a") [] (Some text_formatter)) /\
  ffilter (mkEngine (s "a") [] (Some text_formatter)) entries (s "a" ++ s "b") 0 =
    Some ([1], mkEngine (s "ab") [1] (Some text_formatter)) /\
  ~ incl [1] [].
Proof.
  split; [reflexivity|]; split; [reflexivity|].
  intros H; destruct (H 1 (or_introl eq_refl)).
Qed.

Lemma filter_monotone_valid_cache_witness :
  exists r1 r2 st1' st2',
    ffilter engine0 entries (s "a") 0 = Some (r1, st1') /\
    ffilter engine0 entries (s "a" ++ s "b") 0 = Some (r2, st2') /\ incl r2 r1.
Proof.
  apply (filter_monotone_valid_cache ascii_dec ascii_casing (fun _ => Seq)
           entries 0 (s "a") (s "b") engine0 engine0);
    [left; split; reflexivity | left; split; reflexivity | reflexivity | reflexivity].
Defined.

(** With the same stale cache, [filter] then [filter_new_logs] for "ab"
    returns [], a fresh engine returns [1]. *)
Lemma filter_new_logs_stale_cache :
  ffilter stale_engine entries (s "ab") 0 = Some ([], mkEngine (s "ab") [] (Some text_formatter)) /\
  fnew (mkEngine (s "ab") [] (Some text_formatter)) (entries ++ [s "q"]) 2 (s "ab") 0 =
    Some ([], mkEngine (s "ab") [] (Some text_formatter)) /\
  ffilter engine0 (entries ++ [s "q"]) (s "ab") 0 =
    Some ([1], mkEngine (s "ab") [1] (Some text_formatter)).
Proof. repeat split; reflexivity. Qed.

Lemma filter_new_logs_matches_fresh_witness :
  exists r st2 st3,
    fnew (mkEngine (s "ab") [1] (Some text_formatter)) (entries ++ [s "xab"]) 2 (s "ab") 0
      = Some (r, st2) /\
    ffilter (new_engine (Some text_formatter)) (entries ++ [s "xab"]) (s "ab") 0 = Some (r, st3).
Proof.
  apply (filter_new_logs_matches_fresh ascii_dec ascii_casing (fun _ => Seq)
           entries [s "xab"] (s "ab") 0 engine0 [1]);
    [left; split; reflexivity | reflexivity | left; discriminate].
Defined.

(** C8 counterexample: a search space of exactly 1000 candidates runs on the
    sequential path. *)
Lemma thousand_candidates_sequential : uses_parallel (range 1000) = false.
Proof. vm_compute; reflexivity. Qed.

Lemma filter_paths_agree_witness :
  (uses_parallel (range 3) = true <-> 1000 < length (range 3)) /\
  (forall sp, filter_parallel ascii_dec ascii_casing sp entries (range 2) (s "a") 0 text_formatter =
              filter_sequential ascii_dec ascii_casing entries (range 2) (s "a") 0 text_formatter) /\
  True.
Proof.
  split; [apply (filter_paths_agree ascii_dec ascii_casing entries (range 3) (s "a") 0 text_formatter);
          apply range_StronglySorted|].
  split; [apply (filter_paths_agree ascii_dec ascii_casing entries (range 2) (s "a") 0 text_formatter);
          apply range_StronglySorted | exact I].
Defined.

Lemma no_formatter_returns_all_witness :
  ffilter (new_engine None) entries (s "a") 0 = Some (range 2, new_engine None) /\
  (forall n, fnew (new_engine None) entries n (s "a") 0 = Some (range 2, new_engine None)).
Proof.
  apply (no_formatter_returns_all ascii_dec ascii_casing (fun _ => Seq) (new_engine None) entries (s "a") 0);
    [constructor | discriminate].
Defined.

(** The claims' counterexamples with a 'Σ', on the Unicode engine. *)
Import UnicodeInstance.

(** C1 counterexample: from a fresh engine on the entry "aσb", "aΣ" (lowered
    to "aς", a word-final sigma) selects nothing, then "aΣb" (lowered to
    "aσb") selects index 0. *)
Lemma filter_monotone_final_sigma :
  to_lowercase unicode_casing q_a_sigma = a_final_sigma /\
  to_lowercase unicode_casing (q_a_sigma ++ q_b) = a_sigma_b /\
  UnicodeInstance.ffilter UnicodeInstance.engine0 [a_sigma_b] q_a_sigma 0 =
    Some ([], mkEngine q_a_sigma [] (Some UnicodeInstance.text_formatter)) /\
  UnicodeInstance.ffilter (mkEngine q_a_sigma [] (Some UnicodeInstance.text_formatter))
    [a_sigma_b] (q_a_sigma ++ q_b) 0 =
    Some ([0], mkEngine (q_a_sigma ++ q_b) [0] (Some UnicodeInstance.text_formatter)) /\
  ~ incl [0] [].
Proof.
  repeat split; try reflexivity.
  intros H; destruct (H 0 (or_introl eq_refl)).
Qed.

(** C2 counterexample: on the entries "aσb", "aς", a fresh engine's filter
    for "aΣ" caches [1] (a cache that agrees with the entries); "aΣb" then
    searches only that cache and gets [], and after "zz" is appended
    [filter_new_logs] still returns [], while a fresh engine returns [0]. *)
Lemma filter_new_logs_final_sigma :
  UnicodeInstance.ffilter UnicodeInstance.engine0 [a_sigma_b; a_final_sigma] q_a_sigma 0 =
    Some ([1], mkEngine q_a_sigma [1] (Some UnicodeInstance.text_formatter)) /\
  UnicodeInstance.ffilter (mkEngine q_a_sigma [1] (Some UnicodeInstance.text_formatter))
    [a_sigma_b; a_final_sigma] (q_a_sigma ++ q_b) 0 =
    Some ([], mkEngine (q_a_sigma ++ q_b) [] (Some UnicodeInstance.text_formatter)) /\
  UnicodeInstance.fnew (mkEngine (q_a_sigma ++ q_b) [] (Some UnicodeInstance.text_formatter))
    [a_sigma_b; a_final_sigma; zz] 2 (q_a_sigma ++ q_b) 0 =
    Some ([], mkEngine (q_a_sigma ++ q_b) [] (Some UnicodeInstance.text_formatter)) /\
  UnicodeInstance.ffilter UnicodeInstance.engine0 [a_sigma_b; a_final_sigma; zz]
    (q_a_sigma ++ q_b) 0 =
    Some ([0], mkEngine (q_a_sigma ++ q_b) [0] (Some UnicodeInstance.text_formatter)).
Proof. repeat split; reflexivity. Qed.

End FilterClaims.

(* ===================================================================== *)
(** ** The structured reassembler *)
(* ===================================================================== *)

Module SortFacts.
Import Text.

Section Sort.
Context {A : Type} (key : A -> nat).

Lemma insert_by_perm (x : A) (l : list A) : Permutation (insert_by key x l) (x :: l).
Proof.
  induction l as [|y l IH]; simpl; [constructor; constructor|].
  destruct (key x <=? key y); [reflexivity|].
  rewrite IH. constructor.
Qed.

Lemma sort_by_key_perm (l : list A) : Permutation (sort_by_key key l) l.
Proof.
  induction l as [|x l IH]; simpl; [constructor|].
  rewrite insert_by_perm. constructor. exact IH.
Qed.

Lemma insert_by_sorted (x : A) (l : list A) :
  Sorted (fun a b => key a <= key b) l ->
  Sorted (fun a b => key a <= key b) (insert_by key x l).
Proof.
  induction 1 as [|y l Hs IH Hhd]; simpl; [repeat constructor|].
  destruct (key x <=? key y) eqn:E.
  - apply Nat.leb_le in E. constructor; [constructor; assumption | constructor; exact E].
  - apply Nat.leb_gt in E. constructor; [exact IH|].
    destruct l as [|z l]; simpl; [constructor; lia|].
    inversion Hhd; subst.
    destruct (key x <=? key z); constructor; lia.
Qed.

Lemma sort_by_key_sorted (l : list A) : Sorted (fun a b => key a <= key b) (sort_by_key key l).
Proof.
  induction l as [|x l IH]; simpl; [constructor|].
  apply insert_by_sorted, IH.
Qed.

End Sort.
End SortFacts.

Module ReassemblerClaims.
Import Text Dyeh SortFacts.

Definition nlc : ascii := "010"%char.

(** A body with an item, a pause marker on its own line, and a second item. *)
Definition interleaved_body : str :=
  s "## 2025-01-15 10:30:00 a" ++ nlc :: s "onpause" ++ nlc :: s "## 2025-01-15 10:30:01 b".

(** Claim C3: the entries of [process_delta] are the special events and the
    delimiter-based items of the cleaned body, each tagged with the byte
    offset where it starts, sorted by that offset in non-decreasing order;
    a pause event between two items comes out between them. *)
Theorem process_delta_sorted_by_offset (delta : str) :
  process_delta delta = map snd (process_delta_positioned delta) /\
  Sorted (fun a b => fst a <= fst b) (process_delta_positioned delta) /\
  Permutation (process_delta_positioned delta)
    (match clean delta with
     | [] => []
     | body => special_events body ++ structured_items body
     end) /\
  map fst (process_delta_positioned interleaved_body) = [0; 25; 33] /\
  map snd (process_delta_positioned interleaved_body) =
    [mkItem (s "2025-01-15 10:30:00") [] [] [] (s "a" ++ nlc :: s "onpause")
            (s "a" ++ nlc :: s "onpause");
     paused_item;
     mkItem (s "2025-01-15 10:30:01") [] [] [] (s "b") (s "b")].
Proof.
  unfold process_delta, process_delta_positioned.
  split; [reflexivity|].
  split; [|split; [|split; vm_compute; reflexivity]].
  - destruct (clean delta); [constructor|].
    apply (sort_by_key_sorted fst).
  - destruct (clean delta); [constructor|].
    apply sort_by_key_perm.
Qed.

Lemma find_iter_aux_none (m : matcher) (t : str) :
  (forall i, m (skipn i t) = None) -> forall pos skip, find_iter_aux m t pos skip = [].
Proof.
  induction t as [|c t IH]; intros H pos skip; [reflexivity|].
  assert (H' : forall i, m (skipn i t) = None) by (intro i; exact (H (S i))).
  destruct skip as [|k]; simpl.
  - rewrite (H 0 : m (c :: t) = None). apply IH, H'.
  - apply IH, H'.
Qed.

Lemma special_events_items (body : str) (x : nat * LogItem) :
  In x (special_events body) -> snd x = paused_item \/ snd x = resumed_item.
Proof.
  unfold special_events, matchers, pause_capture, resume_capture. simpl.
  rewrite app_nil_r. intro Hin.
  apply in_app_or in Hin as [Hin|Hin]; apply in_map_iff in Hin as [ev [<- Hin]];
    apply in_map_iff in Hin as [sp [<- _]]; simpl; auto.
Qed.

Lemma structured_items_no_windows (body : str) :
  find_iter item_sep_at body = [] -> structured_items body = [].
Proof.
  intro Hf. unfold structured_items, item_windows. rewrite Hf. reflexivity.
Qed.

Lemma block_ranges_no_match (re : matcher) (text : str) :
  find_iter re text = [] -> block_ranges re text = [].
Proof.
  intro Hf. unfold block_ranges, expanded_ranges. rewrite Hf. reflexivity.
Qed.

(** Claim C5 (counterexample): the delta "onpause" has no item delimiter,
    yet the lazylog-dyeh reassembler returns one synthetic PAUSED entry. *)
Lemma no_delimiter_pause_entry :
  find_iter item_sep_at (clean (s "onpause")) = [] /\
  Dyeh.process_delta (s "onpause") = [paused_item].
Proof. split; vm_compute; reflexivity. Qed.

(** Claim C5 (amended): when the cleaned body has no item delimiter at any
    offset, lazylog-parser's reassembler returns no entry, and every entry
    of lazylog-dyeh's reassembler is a synthetic PAUSED or RESUMED event;
    with no pause or resume marker either, it returns no entry. *)
Theorem no_delimiter_no_structured_entries (delta : str)
  (Hnone : forall i, item_sep_at (skipn i (clean delta)) = None) :
  LazyParser.process_delta delta = [] /\
  Forall (fun it => it = paused_item \/ it = resumed_item) (Dyeh.process_delta delta) /\
  (find_iter pause_at (clean delta) = [] -> find_iter resume_at (clean delta) = [] ->
   Dyeh.process_delta delta = []).
Proof.
  assert (Hf : find_iter item_sep_at (clean delta) = [])
    by (apply find_iter_aux_none, Hnone).
  unfold LazyParser.process_delta, Dyeh.process_delta, process_delta_positioned.
  remember (clean delta) as body eqn:Hb. clear Hb Hnone.
  rewrite (structured_items_no_windows body Hf), app_nil_r.
  split; [|split].
  - destruct body; [reflexivity|]. rewrite Hf. reflexivity.
  - apply Forall_forall. intros it Hin.
    destruct body as [|c t]; [contradiction|].
    apply in_map_iff in Hin as [x [<- Hin]].
    apply (special_events_items (c :: t)).
    apply (Permutation_in _ (sort_by_key_perm fst _)) in Hin. exact Hin.
  - intros Hp Hr. destruct body as [|c t]; [reflexivity|].
    unfold special_events, matchers, pause_capture, resume_capture,
      pause_block_ranges, resume_block_ranges.
    simpl. rewrite (block_ranges_no_match _ _ Hp), (block_ranges_no_match _ _ Hr).
    reflexivity.
Qed.

(** A delta with no delimiter and no marker. *)
Lemma no_delimiter_no_structured_entries_witness :
  (forall i, item_sep_at (skipn i (clean (s "hello"))) = None) /\
  LazyParser.process_delta (s "hello") = [] /\
  Forall (fun it => it = paused_item \/ it = resumed_item) (Dyeh.process_delta (s "hello")) /\
  (find_iter pause_at (clean (s "hello")) = [] -> find_iter resume_at (clean (s "hello")) = [] ->
   Dyeh.process_delta (s "hello") = []).
Proof.
  assert (H : forall i, item_sep_at (skipn i (clean (s "hello"))) = None).
  { intro i. do 6 (destruct i as [|i]; [vm_compute; reflexivity|]).
    destruct i; vm_compute; reflexivity. }
  split; [exact H|].
  apply (no_delimiter_no_structured_entries (s "hello") H).
Defined.

(** Consecutive ranges more than one byte apart. *)
Fixpoint separated (l : list range) : Prop :=
  match l with
  | a :: ((b :: _) as l') => snd a + 1 < fst b /\ separated l'
  | _ => True
  end.

Definition covered_by (l : list range) (r : range) : Prop :=
  exists m, In m l /\ fst m <= fst r /\ snd r <= snd m.

Definition comes_from (all : list range) (m : range) : Prop :=
  exists r1 r2, In r1 all /\ In r2 all /\ fst m = fst r1 /\ snd m = snd r2.

Lemma separated_snoc_end (l : list range) (ls le le' : nat) :
  separated (l ++ [(ls, le)]) -> separated (l ++ [(ls, le')]).
Proof.
  induction l as [|x l IH]; [simpl; auto|].
  destruct l as [|y l]; simpl in *; [tauto|].
  intros [H1 H2]. split; [exact H1|]. apply IH, H2.
Qed.

Lemma separated_snoc2 (l : list range) (b a : range) :
  separated (l ++ [b]) -> snd b + 1 < fst a -> separated (l ++ [b; a]).
Proof.
  induction l as [|x l IH]; [simpl; auto|].
  destruct l as [|y l]; simpl in *; [tauto|].
  intros [H1 H2] Hba. split; [exact H1|]. apply IH; assumption.
Qed.

Lemma merge_loop_separated (ranges merged : list range) :
  separated (rev merged) -> separated (merge_loop merged ranges).
Proof.
  revert merged. induction ranges as [|[rs re] ranges IH]; intros merged Hs; [exact Hs|].
  destruct merged as [|[ls le] merged']; simpl.
  - apply IH. simpl. exact I.
  - destruct (rs <=? le + 1) eqn:E; apply IH; simpl in *.
    + apply separated_snoc_end with (le := le). exact Hs.
    + rewrite <- app_assoc. apply separated_snoc2; [exact Hs|].
      apply Nat.leb_gt in E. simpl. lia.
Qed.

Lemma separated_nth (l : list range) (i : nat) (a b : range) :
  separated l -> nth_error l i = Some a -> nth_error l (S i) = Some b -> snd a + 1 < fst b.
Proof.
  revert i. induction l as [|x l IH]; intros i Hs Ha Hb; [destruct i; discriminate|].
  destruct l as [|y l]; [destruct i as [|[|i]]; discriminate|].
  destruct i as [|i]; simpl in Ha, Hb.
  - injection Ha as <-. injection Hb as <-. exact (proj1 Hs).
  - apply (IH i); [exact (proj2 Hs) | exact Ha | exact Hb].
Qed.

Lemma merge_loop_covers (ranges merged : list range) :
  StronglySorted (fun a b => fst a <= fst b) ranges ->
  (forall r, In r ranges -> match merged with (ls, _) :: _ => ls <= fst r | [] => True end) ->
  forall r, In r ranges \/ covered_by merged r -> covered_by (merge_loop merged ranges) r.
Proof.
  revert merged.
  induction ranges as [|[rs re] ranges IH]; intros merged Hs Hhd r Hr.
  - simpl. destruct Hr as [[]|[m [Hm Hle]]]. exists m. rewrite <- in_rev. auto.
  - inversion Hs as [|? ? Hs' Hall]; subst. rewrite Forall_forall in Hall.
    destruct merged as [|[ls le] merged']; simpl.
    + apply IH; [exact Hs' | intros r' Hr'; exact (Hall r' Hr') |].
      destruct Hr as [[<-|Hin]|[m [[] _]]].
      * right. exists (rs, re). simpl. auto.
      * left. exact Hin.
    + assert (Hls : ls <= rs) by exact (Hhd (rs, re) (or_introl eq_refl)).
      destruct (rs <=? le + 1) eqn:E; apply IH; try exact Hs'.
      * intros r' Hr'. specialize (Hall r' Hr'). simpl in Hall. lia.
      * destruct Hr as [[<-|Hin]|[m [[<-|Hm] Hle]]].
        -- right. exists (ls, Nat.max le re). simpl. split; [auto | lia].
        -- left. exact Hin.
        -- right. exists (ls, Nat.max le re). simpl in *. split; [auto | lia].
        -- right. exists m. simpl. auto.
      * intros r' Hr'. exact (Hall r' Hr').
      * destruct Hr as [[<-|Hin]|[m [Hm Hle]]].
        -- right. exists (rs, re). simpl. split; [auto | lia].
        -- left. exact Hin.
        -- right. exists m. simpl. simpl in Hm. tauto.
Qed.

Lemma merge_loop_origin (all ranges merged : list range) :
  incl ranges all -> (forall m, In m merged -> comes_from all m) ->
  forall m, In m (merge_loop merged ranges) -> comes_from all m.
Proof.
  revert merged.
  induction ranges as [|[rs re] ranges IH]; intros merged Hincl Hm m Hin.
  - simpl in Hin. apply Hm. rewrite in_rev. exact Hin.
  - assert (Hr : In (rs, re) all) by (apply Hincl; left; reflexivity).
    assert (Hincl' : incl ranges all) by (intros x Hx; apply Hincl; right; exact Hx).
    assert (Hself : comes_from all (rs, re)) by (exists (rs, re), (rs, re); auto).
    destruct merged as [|[ls le] merged']; simpl in Hin.
    + apply (IH [(rs, re)] Hincl'); [|exact Hin].
      intros m' [<-|[]]. exact Hself.
    + destruct (rs <=? le + 1); (eapply (IH _ Hincl'); [|exact Hin]).
      * intros m' [<-|Hm'].
        -- destruct (Hm (ls, le) (or_introl eq_refl)) as [r1 [r2 [H1 [H2 [E1 E2]]]]].
           destruct (Nat.max_dec le re) as [Emax|Emax].
           ++ exists r1, r2. simpl in *. rewrite Emax. auto.
           ++ exists r1, (rs, re). simpl in *. rewrite Emax. auto.
        -- apply Hm. right. exact Hm'.
      * intros m' [<-|Hm']; [exact Hself | apply Hm; exact Hm'].
Qed.

(** A pause call on line 3 and "onpause" on line 5, with a non-empty line 4. *)
Definition pause_lines_3_5 : str :=
  s "a" ++ nlc :: s "b" ++ nlc :: s "bef_effect_onpause_imp(" ++ nlc :: s "xyz" ++ nlc
  :: s "onpause".

(** The same with an empty line 4. *)
Definition pause_lines_3_5_empty_4 : str :=
  s "a" ++ nlc :: s "b" ++ nlc :: s "bef_effect_onpause_imp(" ++ nlc :: nlc :: s "onpause".

(** Claim C4 (counterexample): with a non-empty line 4 between the pause
    markers on lines 3 and 5, the two line ranges are not merged and two
    PAUSED entries are produced. *)
Lemma pause_lines_not_merged :
  pause_block_ranges pause_lines_3_5 = [(4, 28); (32, 39)] /\
  Dyeh.process_delta pause_lines_3_5 = [paused_item; paused_item].
Proof. split; vm_compute; reflexivity. Qed.

(** Claim C4 (amended): the merged ranges of a matcher cover every
    line-expanded match range, start at the start of one and end at the end
    of one, and consecutive merged ranges are more than one byte apart; each
    merged range yields exactly one synthetic entry at its start. Markers on
    lines 3 and 5 merge into one PAUSED entry when line 4 is empty. *)
Theorem block_ranges_merge (re : matcher) (text : str) :
  (forall r, In r (expanded_ranges re text) ->
     exists m, In m (block_ranges re text) /\ fst m <= fst r /\ snd r <= snd m) /\
  (forall m, In m (block_ranges re text) ->
     exists r1 r2, In r1 (expanded_ranges re text) /\ In r2 (expanded_ranges re text) /\
                   fst m = fst r1 /\ snd m = snd r2) /\
  (forall i a b, nth_error (block_ranges re text) i = Some a ->
     nth_error (block_ranges re text) (S i) = Some b -> snd a + 1 < fst b) /\
  pause_capture text = map (fun sp => (sp, paused_item)) (block_ranges pause_at text) /\
  resume_capture text = map (fun sp => (sp, resumed_item)) (block_ranges resume_at text) /\
  pause_block_ranges pause_lines_3_5_empty_4 = [(4, 36)] /\
  Dyeh.process_delta pause_lines_3_5_empty_4 = [paused_item].
Proof.
  split; [|split; [|split; [|split; [reflexivity | split; [reflexivity | split; vm_compute; reflexivity]]]]].
  - intros r Hr.
    apply (merge_loop_covers (sort_by_key fst (expanded_ranges re text)) []).
    + apply Sorted_StronglySorted; [intros x y z; lia|]. apply (sort_by_key_sorted fst).
    + intros; exact I.
    + left. apply (Permutation_in _ (Permutation_sym (sort_by_key_perm fst _))). exact Hr.
  - intros m Hm.
    apply (merge_loop_origin (expanded_ranges re text) (sort_by_key fst (expanded_ranges re text)) [])
      in Hm; [exact Hm | | intros _ []].
    intros x Hx. apply (Permutation_in _ (sort_by_key_perm fst _)). exact Hx.
  - intros i a b. apply separated_nth. apply merge_loop_separated. exact I.
Qed.

End ReassemblerClaims.

Module ParserClaims.
Import Text LazyParser.

Definition nlc : ascii := "010"%char.






Lemma if_with_content (it : LogItem) (k : string) (v : str) :
  content (if negb (is_emptyb v) then with_metadata it k v else it) = content it /\
  raw_content (if negb (is_emptyb v) then with_metadata it k v else it) = raw_content it.
Proof. destruct (is_emptyb v); split; reflexivity. Qed.



End ParserClaims.

Module AndroidClaims.
Import Text LazyParser Android.

Definition nlc : ascii := "010"%char.

(** A logcat [-v long] entry tagged [Effect] whose message is a structured item. *)
Definition effect_raw : str :=
  s "[ 11-14 15:48:35.135 20387:30427 E/[Effect] ]" ++ nlc :: s "## 2025-11-14 15:48:35 hello".

Lemma android_parse_raw (raw : str) (it : LogItem) :
  android_parse raw = Some it -> raw_content it = raw.
Proof.
  intro H. unfold android_parse in H.
  destruct (lines raw) as [|first_line rest]; [discriminate|].
  destruct (negb _); [injection H as <-; reflexivity|].
  destruct (find_by _ _); [|injection H as <-; reflexivity].
  destruct (rfind_ws _) as [[p [|[|k]]]|]; try discriminate; injection H as <-; reflexivity.
Qed.

Lemma android_effect_parse_first (raw : str) (it : LogItem) :
  android_effect_parse raw = Some it ->
  exists parsed, android_parse raw = Some parsed /\
                 hd_error (LazyParser.process_delta (content parsed)) = Some it.
Proof.
  intro H. unfold android_effect_parse in H.
  destruct (android_parse raw) as [parsed|]; [|discriminate].
  destruct (negb _); [discriminate|].
  destruct (negb _); [discriminate|].
  destruct (LazyParser.process_delta (content parsed)) as [|item rest] eqn:E; [discriminate|].
  injection H as <-. exists parsed. rewrite E. auto.
Qed.

Lemma process_delta_raw (delta : str) (it : LogItem) :
  In it (LazyParser.process_delta delta) ->
  exists w ts rest, In w (item_windows (clean delta)) /\
    item_parse (slice (clean delta) (fst w) (snd w)) = Some (ts, rest) /\
    raw_content it = trim rest.
Proof.
  unfold LazyParser.process_delta. cbv zeta.
  remember (clean delta) as body eqn:Hb. clear Hb.
  destruct body as [|c t]; [intros []|].
  destruct (find_iter item_sep_at (c :: t)) as [|m0 ms]; [intros []|].
  intro Hin. apply in_flat_map in Hin as [w [Hw Hin]].
  destruct (window_item (c :: t) w) as [item|] eqn:E; [|destruct Hin].
  destruct Hin as [<-|[]].
  unfold window_item in E.
  destruct (LazyParser.parse_structured (slice (c :: t) (fst w) (snd w))) as [it0|] eqn:P;
    [|discriminate].
  unfold LazyParser.parse_structured in P.
  destruct (item_parse (slice (c :: t) (fst w) (snd w))) as [[ts rest]|] eqn:I; [|discriminate].
  injection P as <-.
  destruct (split_header _) as [[[o l] tg] m].
  injection E as <-.
  exists w, ts, rest. split; [exact Hw|]. split; [exact I|].
  rewrite (proj2 (ParserClaims.if_with_content _ _ _)), (proj2 (ParserClaims.if_with_content _ _ _)),
    (proj2 (ParserClaims.if_with_content _ _ _)).
  reflexivity.
Qed.

(** Claim C7 (counterexample): [AndroidEffectParser::parse] accepts this
    raw log and returns an entry whose raw text is "hello", the trimmed text
    after the item's timestamp, not the raw log. *)
Lemma effect_parse_raw_differs :
  android_effect_parse effect_raw = Some (new_item (s "hello") (s "hello")) /\
  s "hello" <> effect_raw.
Proof.
  split; [vm_compute; reflexivity|].
  intro H. vm_compute in H. discriminate H.
Qed.

(** Claim C7 (what holds): [AndroidParser::parse] keeps the raw log as the
    entry's raw text; [AndroidEffectParser::parse] returns the first entry
    of lazylog-parser's [process_delta] on the parsed content; and every
    entry of that [process_delta] has as raw text the trimmed remainder of
    its item window after the delimiter's timestamp. *)
Theorem decoder_raw_content :
  (forall raw it, android_parse raw = Some it -> raw_content it = raw) /\
  (forall raw it, android_effect_parse raw = Some it ->
     exists parsed, android_parse raw = Some parsed /\
                    hd_error (LazyParser.process_delta (content parsed)) = Some it) /\
  (forall delta it, In it (LazyParser.process_delta delta) ->
     exists w ts rest, In w (item_windows (clean delta)) /\
       item_parse (slice (clean delta) (fst w) (snd w)) = Some (ts, rest) /\
       raw_content it = trim rest).
Proof.
  split; [exact android_parse_raw|].
  split; [exact android_effect_parse_first | exact process_delta_raw].
Qed.

End AndroidClaims.

Module HandOffClaims.
Import HandOff.

Section Claims.
Context {A : Type}.

(** The items a poll hands to the queue: the raw logs the parser accepts. *)
Definition parsed_items {R : Type} (parse : R -> option A) (raw_logs : list R) : list A :=
  flat_map (fun raw => match parse raw with Some it => [it] | None => [] end) raw_logs.

Lemma step_bound (r1 r2 : @ring A) :
  step r1 r2 -> length (items r1) <= capacity r1 ->
  capacity r2 = capacity r1 /\ length (items r2) <= capacity r2.
Proof.
  intros Hs Hle. destruct Hs as [r x|r].
  - unfold after_push, try_push.
    destruct (length (items r) <? capacity r) eqn:E; simpl; [|auto].
    apply Nat.ltb_lt in E. rewrite length_app. simpl. split; [reflexivity | lia].
  - unfold try_pop. destruct (items r) as [|y rest] eqn:E; simpl in *;
      split; try reflexivity; try rewrite E; simpl; lia.
Qed.

Lemma steps_bound (r1 r2 : @ring A) :
  steps r1 r2 -> length (items r1) <= capacity r1 ->
  capacity r2 = capacity r1 /\ length (items r2) <= capacity r2.
Proof.
  induction 1 as [r|r1 r2 r3 Hs Hss IH]; intro Hle; [auto|].
  destruct (step_bound r1 r2 Hs Hle) as [Ec Hle2].
  destruct (IH Hle2) as [Ec' Hle3]. split; [congruence | exact Hle3].
Qed.

Lemma push_polled_spec {R : Type} (parse : R -> option A) (raw_logs : list R) :
  forall r, push_polled parse r raw_logs =
    (mkRing (capacity r)
       (items r ++ firstn (capacity r - length (items r)) (parsed_items parse raw_logs)),
     skipn (capacity r - length (items r)) (parsed_items parse raw_logs)).
Proof.
  induction raw_logs as [|raw rest IH]; intro r.
  - simpl. rewrite firstn_nil, skipn_nil, app_nil_r. destruct r. reflexivity.
  - simpl. destruct (parse raw) as [item|]; simpl; [|apply IH].
    unfold try_push.
    destruct (length (items r) <? capacity r) eqn:E.
    + apply Nat.ltb_lt in E. rewrite IH. simpl. rewrite length_app. simpl.
      replace (capacity r - length (items r)) with (S (capacity r - (length (items r) + 1)))
        by lia.
      simpl. rewrite <- app_assoc. reflexivity.
    + apply Nat.ltb_ge in E. rewrite IH.
      replace (capacity r - length (items r)) with 0 by lia. simpl.
      rewrite app_nil_r. reflexivity.
Qed.

(** Claim C9: on a full queue [try_push] returns the new item in [Err] and
    the queue is left as it was; with room it appends the item. Any
    interleaving of producer pushes and consumer pops from a queue within
    capacity keeps it within capacity. One poll of the provider thread,
    with no draining, keeps the first items that fit and drops every later
    one; every operation is a total function, so the producer never waits. *)
Theorem handoff_drop_newest :
  (forall (r : @ring A) x, capacity r <= length (items r) ->
     try_push r x = Full x /\ after_push r x = r) /\
  (forall (r : @ring A) x, length (items r) < capacity r ->
     after_push r x = mkRing (capacity r) (items r ++ [x])) /\
  (forall r1 r2 : @ring A, steps r1 r2 -> length (items r1) <= capacity r1 ->
     capacity r2 = capacity r1 /\ length (items r2) <= capacity r2) /\
  (forall (R : Type) (parse : R -> option A) (r : @ring A) raw_logs,
     push_polled parse r raw_logs =
       (mkRing (capacity r)
          (items r ++ firstn (capacity r - length (items r)) (parsed_items parse raw_logs)),
        skipn (capacity r - length (items r)) (parsed_items parse raw_logs))).
Proof.
  split; [|split; [|split]].
  - intros r x Hfull. unfold after_push, try_push.
    destruct (length (items r) <? capacity r) eqn:E; [apply Nat.ltb_lt in E; lia|].
    auto.
  - intros r x Hroom. unfold after_push, try_push.
    apply Nat.ltb_lt in Hroom. rewrite Hroom. reflexivity.
  - exact steps_bound.
  - intros R parse r raw_logs. apply push_polled_spec.
Qed.

End Claims.
End HandOffClaims.

(* ===================================================================== *)
(** ** Further properties of the code *)
(* ===================================================================== *)

Module AppFacts.
Import Filter FilterFacts App Detail.

Section Facts.
Context {Char Item : Type}.
Context (char_eq_dec : forall a b : Char, {a = b} + {a <> b}).
Context (cs : Casing Char).
Context (par_split : nat -> split).
Context (slash : Char).

Local Abbreviation ffilter := (@filter Char Item char_eq_dec cs par_split).
Local Abbreviation fnew := (@filter_new_logs Char Item char_eq_dec cs par_split).
Local Abbreviation selected := (@selected Char Item char_eq_dec cs).
Local Abbreviation cache_valid := (@cache_valid Char Item char_eq_dec cs).
Local Abbreviation query := (get_filter_query char_eq_dec slash).
Local Abbreviation step := (app_step char_eq_dec cs par_split slash).
Local Abbreviation run := (app_run char_eq_dec cs par_split slash).













(** The part of the invariant that keeps every call from panicking, whatever
    the queries: the formatter is set and the cached indices are inside the
    log list. *)
Definition app_safe (f : @formatter Char Item) (a : @AppState Char Item) : Prop :=
  fmt (filter_engine a) = Some f /\
  Forall (fun i => i < length (raw_logs a)) (previous_results (filter_engine a)).

Lemma forallb_lt_Forall n (l : list nat) :
  forallb (fun i => i <? n) l = true <-> Forall (fun i => i < n) l.
Proof.
  rewrite forallb_forall, Forall_forall.
  split; intros H i Hi; specialize (H i Hi); apply Nat.ltb_lt; exact H.
Qed.

Lemma Forall_list_filter {A} (P : A -> Prop) (g : A -> bool) (l : list A) :
  Forall P l -> Forall P (List.filter g l).
Proof.
  rewrite !Forall_forall. intros H x Hx. apply filter_In in Hx as [Hx _]. auto.
Qed.

Lemma filter_safe raw_logs d (st : @FilterEngine Char Item) q f :
  fmt st = Some f -> Forall (fun i => i < length raw_logs) (previous_results st) ->
  exists r st', ffilter st raw_logs q d = Some (r, st') /\ fmt st' = Some f /\
    Forall (fun i => i < length raw_logs) (previous_results st').
Proof.
  intros Hf Hr. unfold Filter.filter. destruct (is_empty q).
  - do 2 eexists. split; [reflexivity|]. split; [exact Hf | constructor].
  - rewrite Hf. cbv zeta. rewrite filter_indices_sequential, filter_sequential_spec.
    destruct (_ && _ && _).
    + rewrite (proj2 (forallb_lt_Forall _ _) Hr).
      do 2 eexists. split; [reflexivity|]. split; [first [exact Hf | reflexivity]|].
      apply Forall_list_filter, Hr.
    + rewrite forallb_range.
      do 2 eexists. split; [reflexivity|]. split; [first [exact Hf | reflexivity]|].
      apply Forall_list_filter, forallb_lt_Forall, forallb_range.
Qed.

Lemma filter_new_logs_safe raw_logs new_logs d (st : @FilterEngine Char Item) q f :
  fmt st = Some f -> Forall (fun i => i < length raw_logs) (previous_results st) ->
  exists r st', fnew st (raw_logs ++ new_logs) (length raw_logs) q d = Some (r, st') /\
    fmt st' = Some f /\
    Forall (fun i => i < length (raw_logs ++ new_logs)) (previous_results st').
Proof.
  intros Hf Hr.
  assert (Hr' : Forall (fun i => i < length (raw_logs ++ new_logs)) (previous_results st)).
  { eapply Forall_impl; [|exact Hr]. intros i Hi. simpl in Hi. rewrite length_app. lia. }
  unfold Filter.filter_new_logs.
  destruct (negb _); [apply filter_safe; assumption|].
  destruct (_ <=? _); [do 2 eexists; split; [reflexivity | auto]|].
  destruct (is_empty q); [do 2 eexists; split; [reflexivity | auto]|].
  rewrite Hf. cbv zeta. rewrite filter_indices_sequential, filter_sequential_spec.
  replace (forallb _ _) with true.
  2:{ symmetry. apply forallb_forall. intros i Hi. apply in_seq in Hi.
      rewrite length_app in *. apply Nat.ltb_lt. lia. }
  do 2 eexists. split; [reflexivity|]. split; [first [exact Hf | reflexivity]|]. simpl.
  apply Forall_app. split; [exact Hr'|].
  apply Forall_list_filter, Forall_forall. intros i Hi. apply in_seq in Hi.
  rewrite length_app in *. lia.
Qed.

Lemma step_safe f (a : @AppState Char Item) ev :
  app_safe f a -> exists a', step a ev = Some a' /\ app_safe f a'.
Proof.
  intros [Hf Hr].
  destruct ev as [new_logs|input| |max|]; simpl.
  - unfold update_logs. destruct new_logs as [|x xs]; [exists a; split; [reflexivity | split; auto]|].
    destruct (filter_new_logs_safe (raw_logs a) (x :: xs) (detail_level a) (filter_engine a)
                (query (filter_input a)) f Hf Hr) as [r [st' [E [Hf' Hr']]]].
    cbv zeta. rewrite E. eexists. split; [reflexivity|]. split; assumption.
  - unfold rebuild_filtered_list; simpl.
    destruct (filter_safe (raw_logs a) (detail_level a) (filter_engine a) (query input) f Hf Hr)
      as [r [st' [E [Hf' Hr']]]].
    rewrite E. eexists. split; [reflexivity|]. split; assumption.
  - unfold rebuild_filtered_list; simpl.
    destruct (filter_safe (raw_logs a) (decrement_detail_level (detail_level a))
                (reset (filter_engine a)) (query (filter_input a)) f Hf (Forall_nil _))
      as [r [st' [E [Hf' Hr']]]].
    rewrite E. eexists. split; [reflexivity|]. split; assumption.
  - unfold rebuild_filtered_list; simpl.
    destruct (filter_safe (raw_logs a) (increment_detail_level (detail_level a) max)
                (reset (filter_engine a)) (query (filter_input a)) f Hf (Forall_nil _))
      as [r [st' [E [Hf' Hr']]]].
    rewrite E. eexists. split; [reflexivity|]. split; assumption.
  - unfold rebuild_filtered_list; simpl.
    destruct (filter_safe [] (detail_level a)
                (reset (filter_engine a)) (query (filter_input a)) f Hf (Forall_nil _))
      as [r [st' [E [Hf' Hr']]]].
    rewrite E. eexists. split; [reflexivity|]. split; assumption.
Qed.

(** No call of the app panics, whatever the events. *)
Lemma app_run_safe (f : @formatter Char Item) init evs :
  exists a, run (app_new char_eq_dec slash f init) evs = Some a /\ app_safe f a.
Proof.
  assert (H0 : app_safe f (app_new char_eq_dec slash f init))
    by (split; [reflexivity | constructor]).
  revert H0. generalize (app_new char_eq_dec slash f init) as a.
  induction evs as [|ev evs IH]; intros a Ha; simpl; [exists a; auto|].
  destruct (step_safe f a ev Ha) as [a' [E Ha']]. rewrite E. apply IH, Ha'.
Qed.


End Facts.


End AppFacts.

Module FilterExtras.
Import Filter FilterFacts.

Section Extras.
Context {Char Item : Type}.
Context (char_eq_dec : forall a b : Char, {a = b} + {a <> b}).
Context (cs : Casing Char).
Context (par_split : nat -> split).

Local Abbreviation ffilter := (@filter Char Item char_eq_dec cs par_split).

Lemma forallb_false_exists {A} (p : A -> bool) (l : list A) :
  forallb p l = false -> exists x, In x l /\ p x = false.
Proof.
  induction l as [|x l IH]; simpl; [discriminate|].
  destruct (p x) eqn:E; simpl; intro H.
  - destruct (IH H) as [y [Hy Hp]]. exists y. auto.
  - exists x. auto.
Qed.

(** [FilterEngine::filter] panics exactly when it takes the incremental
    path (a non-empty query extending a non-empty cached query with
    non-empty cached results, a formatter set) and one of the cached indices
    is outside the log list; a scan of the whole list never panics. *)
Theorem filter_panics_iff (st : @FilterEngine Char Item) raw_logs q d :
  ffilter st raw_logs q d = None <->
  q <> [] /\ fmt st <> None /\ previous_query st <> [] /\
  starts_with char_eq_dec q (previous_query st) = true /\
  exists i, In i (previous_results st) /\ length raw_logs <= i.
Proof.
  unfold Filter.filter. destruct q as [|c q']; cbn [is_empty].
  - split; [discriminate | intros [H _]; congruence].
  - destruct (fmt st) as [f|] eqn:Ef.
    + cbv zeta. rewrite filter_indices_sequential, filter_sequential_spec.
      destruct (previous_query st) as [|p ps] eqn:Ep; cbn [is_empty negb andb].
      * rewrite forallb_range. split; [discriminate | intros (_ & _ & H & _); congruence].
      * destruct (starts_with char_eq_dec (c :: q') (p :: ps)) eqn:Es; cbn [andb].
        -- destruct (previous_results st) as [|i is] eqn:Er; cbn [negb].
           ++ rewrite forallb_range.
              split; [discriminate | intros (_ & _ & _ & _ & j & Hj & _); destruct Hj].
           ++ destruct (forallb (fun k => k <? length raw_logs) (i :: is)) eqn:Ea.
              ** split; [discriminate|]. intros (_ & _ & _ & _ & j & Hj & Hl).
                 rewrite forallb_forall in Ea. specialize (Ea j Hj).
                 apply Nat.ltb_lt in Ea. lia.
              ** split; [intros _ | reflexivity].
                 do 3 (split; [discriminate|]). split; [reflexivity|].
                 destruct (forallb_false_exists _ _ Ea) as [j [Hj Hl]].
                 apply Nat.ltb_ge in Hl. exists j. auto.
        -- rewrite forallb_range.
           split; [discriminate | intros (_ & _ & _ & H & _); discriminate H].
    + split; [discriminate | intros (_ & H & _); congruence].
Qed.

End Extras.
End FilterExtras.

Module AppExtras.
Import Filter App Detail.

Section Extras.
Context {Char Item : Type}.
Context (char_eq_dec : forall a b : Char, {a = b} + {a <> b}).
Context (cs : Casing Char).
Context (par_split : nat -> split).
Context (slash : Char).

Local Abbreviation step := (app_step char_eq_dec cs par_split slash).
Local Abbreviation run := (app_run char_eq_dec cs par_split slash).

(** [App::new] with [initial_filter = Some(value)] starts filtering with
    [value] stripped of its leading slashes: [get_filter_query] gives back
    exactly the text [initial_filter_input] put after its '/'. *)
Theorem initial_filter_query (value : list Char) :
  get_filter_query char_eq_dec slash (initial_filter_input char_eq_dec slash (Some value))
  = trim_start_slashes char_eq_dec slash value.
Proof.
  unfold initial_filter_input.
  destruct (trim_start_slashes char_eq_dec slash value) as [|x [|y r]]; simpl;
    [reflexivity | |]; destruct (char_eq_dec slash slash); congruence.
Qed.

Lemma rebuild_detail (a a' : @AppState Char Item) :
  rebuild_filtered_list char_eq_dec cs par_split slash a = Some a' ->
  detail_level a' = detail_level a.
Proof.
  unfold rebuild_filtered_list.
  destruct (filter _ _ _ _ _ _ _) as [[r st]|]; [|discriminate].
  intro H. injection H as <-. reflexivity.
Qed.

Lemma step_detail (a a' : @AppState Char Item) ev :
  step a ev = Some a' ->
  detail_level a' = match ev with
                    | DetailDown => decrement_detail_level (detail_level a)
                    | DetailUp max => increment_detail_level (detail_level a) max
                    | _ => detail_level a
                    end.
Proof.
  destruct ev as [new_logs|input| |max|]; simpl; intro H;
    try (apply rebuild_detail in H; exact H).
  unfold update_logs in H. destruct new_logs as [|x xs]; [injection H as <-; reflexivity|].
  cbv zeta in H. destruct (filter_new_logs _ _ _ _ _ _ _ _) as [[r st]|]; [|discriminate].
  injection H as <-. reflexivity.
Qed.

(** With the parser's [max_detail_level] at least 1 (the starting level),
    the app's detail level never exceeds it, whatever the events: ']' is
    clamped by [increment_detail_level], '[' only lowers it. *)
Theorem app_detail_level_bounded (f : @formatter Char Item) init evs max :
  1 <= max ->
  Forall (fun ev => match ev with DetailUp m => m = max | _ => True end) evs ->
  exists a, run (app_new char_eq_dec slash f init) evs = Some a /\ detail_level a <= max.
Proof.
  intros Hmax Hevs.
  destruct (AppFacts.app_run_safe char_eq_dec cs par_split slash f init evs)
    as [a [E _]].
  exists a. split; [exact E|].
  assert (Hinit : detail_level (app_new char_eq_dec slash f init) <= max) by exact Hmax.
  revert E Hinit. generalize (app_new char_eq_dec slash f init) as a0.
  induction Hevs as [|ev evs Hev Hevs IH]; intros a0 E H0; simpl in E.
  - injection E as <-. exact H0.
  - destruct (step a0 ev) as [a1|] eqn:Es; [|discriminate].
    apply (IH a1 E). rewrite (step_detail _ _ _ Es).
    destruct ev; unfold decrement_detail_level, increment_detail_level; try subst; lia.
Qed.

End Extras.

Lemma app_detail_level_bounded_witness :
  exists a, app_run ascii_dec FilterInstance.ascii_casing (fun _ => Seq) "/"%char
              (app_new ascii_dec "/"%char FilterInstance.text_formatter None)
              [DetailUp 4; DetailUp 4; DetailUp 4; DetailUp 4; DetailDown] = Some a /\
            detail_level a <= 4.
Proof.
  apply (app_detail_level_bounded ascii_dec FilterInstance.ascii_casing (fun _ => Seq) "/"%char
           FilterInstance.text_formatter None
           [DetailUp 4; DetailUp 4; DetailUp 4; DetailUp 4; DetailDown] 4).
  - lia.
  - repeat constructor.
Defined.

End AppExtras.

Module DetailExtras.
Import Detail.

(** Below the maximum (and the [u8] ceiling), ']' raises the detail level by
    exactly one and '[' then brings it back; the raised level never exceeds
    the maximum. *)
Theorem detail_up_then_down (level max : nat) :
  level < max -> level < 255 ->
  increment_detail_level level max = S level /\
  decrement_detail_level (increment_detail_level level max) = level /\
  increment_detail_level level max <= max.
Proof.
  intros H1 H2. unfold increment_detail_level, decrement_detail_level. lia.
Qed.

Lemma detail_up_then_down_witness :
  increment_detail_level 1 4 = 2 /\ decrement_detail_level (increment_detail_level 1 4) = 1 /\
  increment_detail_level 1 4 <= 4.
Proof. apply (detail_up_then_down 1 4); lia. Defined.

End DetailExtras.

Module MetadataExtras.
Import Text LazyParser.

Lemma filter_map_fst (l : list (string * str)) (k : string) :
  map fst (List.filter (fun kv => negb (String.eqb (fst kv) k)) l) =
  List.filter (fun x => negb (String.eqb x k)) (map fst l).
Proof.
  induction l as [|[a v] l IH]; simpl; [reflexivity|].
  destruct (String.eqb a k); simpl; rewrite IH; reflexivity.
Qed.

Lemma NoDup_filter_str (p : string -> bool) (l : list string) :
  NoDup l -> NoDup (List.filter p l).
Proof.
  induction 1 as [|x l Hx Hnd IH]; simpl; [constructor|].
  destruct (p x); [|exact IH].
  constructor; [|exact IH]. rewrite filter_In. intros [H _]. contradiction.
Qed.

(** [LogItem::with_metadata] behaves as [HashMap::insert]: keys stay
    unique, [get_metadata] on the inserted key gives the new value and on
    any other key what it gave before; content and raw content are kept. *)
Theorem with_metadata_map (it : LogItem) (k : string) (v : str) :
  NoDup (map fst (metadata it)) ->
  NoDup (map fst (metadata (with_metadata it k v))) /\
  (forall k', get_metadata (with_metadata it k v) k' =
              if String.eqb k' k then Some v else get_metadata it k') /\
  content (with_metadata it k v) = content it /\
  raw_content (with_metadata it k v) = raw_content it.
Proof.
  intro Hnd. split; [|split; [|split; reflexivity]].
  - unfold with_metadata. simpl. rewrite filter_map_fst. constructor.
    + rewrite filter_In. intros [_ H]. rewrite String.eqb_refl in H. discriminate.
    + apply NoDup_filter_str, Hnd.
  - intro k'. unfold get_metadata, with_metadata. simpl.
    rewrite String.eqb_sym. destruct (String.eqb k' k) eqn:E; [reflexivity|].
    f_equal. clear Hnd. induction (metadata it) as [|[a w] l IH]; simpl; [reflexivity|].
    destruct (String.eqb a k) eqn:Ea; simpl.
    + destruct (String.eqb a k') eqn:Ea'; [|exact IH].
      apply String.eqb_eq in Ea, Ea'. subst. rewrite String.eqb_refl in E. discriminate.
    + destruct (String.eqb a k'); [reflexivity | exact IH].
Qed.

Lemma with_metadata_map_witness :
  NoDup (map fst (metadata (new_item (s "m") (s "m")))) /\
  (NoDup (map fst (metadata (with_metadata (new_item (s "m") (s "m")) "tag" (s "T")))) /\
   (forall k', get_metadata (with_metadata (new_item (s "m") (s "m")) "tag" (s "T")) k' =
               if String.eqb k' "tag" then Some (s "T")
               else get_metadata (new_item (s "m") (s "m")) k') /\
   content (with_metadata (new_item (s "m") (s "m")) "tag" (s "T")) = s "m" /\
   raw_content (with_metadata (new_item (s "m") (s "m")) "tag" (s "T")) = s "m").
Proof.
  split; [constructor|].
  apply (with_metadata_map (new_item (s "m") (s "m")) "tag" (s "T")). constructor.
Defined.

End MetadataExtras.

Module TextFacts.
Import Text.

Lemma in_firstn_in {A} (x : A) k l : In x (firstn k l) -> In x l.
Proof. intro H. rewrite <- (firstn_skipn k l). apply in_or_app. left. exact H. Qed.

Lemma in_skipn_in {A} (x : A) k l : In x (skipn k l) -> In x l.
Proof. intro H. rewrite <- (firstn_skipn k l). apply in_or_app. right. exact H. Qed.















End TextFacts.

Module HeaderExtras.
Import Text TextFacts.



End HeaderExtras.

Module EntryExtras.
Import Text TextFacts.

Module P := LazyParser.












End EntryExtras.

Module CountExtras.
Import Text TextFacts.

Module P := LazyParser.

Definition non_overlapping (x y : nat * nat) : Prop := snd x <= fst y.

Lemma find_iter_aux_spec (m : matcher) t : forall pos skip,
  Forall (fun ab => pos + skip <= fst ab /\ fst ab < snd ab /\
                    m (skipn (fst ab - pos) t) = Some (snd ab - fst ab))
         (find_iter_aux m t pos skip) /\
  Sorted non_overlapping (find_iter_aux m t pos skip).
Proof.
  induction t as [|c t IH]; intros pos skip; simpl; [split; constructor|].
  destruct skip as [|k].
  - destruct (m (c :: t)) as [[|k]|] eqn:Em.
    + destruct (IH (S pos) 0) as [HF HS]. split; [|exact HS].
      eapply Forall_impl; [|exact HF]. intros [a b] (H1 & H2 & H3); simpl in *.
      split; [lia|]. split; [exact H2|].
      replace (a - pos) with (S (a - S pos)) by lia. exact H3.
    + destruct (IH (S pos) k) as [HF HS]. split.
      * constructor.
        -- simpl. split; [lia|]. split; [lia|]. rewrite Nat.sub_diag. simpl. rewrite Em.
           f_equal. lia.
        -- eapply Forall_impl; [|exact HF]. intros [a b] (H1 & H2 & H3); simpl in *.
           split; [lia|]. split; [exact H2|].
           replace (a - pos) with (S (a - S pos)) by lia. exact H3.
      * constructor; [exact HS|].
        destruct (find_iter_aux m t (S pos) k) as [|y ys]; constructor.
        inversion HF as [|? ? Hy]. unfold non_overlapping. simpl. lia.
    + destruct (IH (S pos) 0) as [HF HS]. split; [|exact HS].
      eapply Forall_impl; [|exact HF]. intros [a b] (H1 & H2 & H3); simpl in *.
      split; [lia|]. split; [exact H2|].
      replace (a - pos) with (S (a - S pos)) by lia. exact H3.
  - destruct (IH (S pos) k) as [HF HS]. split; [|exact HS].
    eapply Forall_impl; [|exact HF]. intros [a b] (H1 & H2 & H3); simpl in *.
    split; [lia|]. split; [exact H2|].
    replace (a - pos) with (S (a - S pos)) by lia. exact H3.
Qed.

Lemma fixed_prefix_length pat t : fixed_prefix pat t = true -> length pat <= length t.
Proof.
  revert t. induction pat as [|a pat IH]; intros [|c t]; simpl; try lia; try discriminate.
  intro H. apply andb_prop in H as [_ H]. apply IH in H. lia.
Qed.

Lemma fixed_prefix_firstn pat t n :
  fixed_prefix pat t = true -> length pat <= n -> fixed_prefix pat (firstn n t) = true.
Proof.
  revert t n. induction pat as [|a pat IH]; intros t n H Hn; [destruct (firstn n t); reflexivity|].
  destruct t as [|c t]; [discriminate|]. destruct n as [|n]; [simpl in Hn; lia|].
  simpl in *. apply andb_prop in H as [Ha H]. rewrite Ha. apply IH; [exact H | lia].
Qed.

Definition sep_len : nat := length item_sep_pat.

Definition sep_match (body : str) (ab : nat * nat) : Prop :=
  snd ab = fst ab + sep_len /\ snd ab <= length body /\
  fixed_prefix item_sep_pat (skipn (fst ab) body) = true.

Lemma find_iter_sep body :
  Forall (sep_match body) (find_iter item_sep_at body) /\
  Sorted non_overlapping (find_iter item_sep_at body).
Proof.
  destruct (find_iter_aux_spec item_sep_at body 0 0) as [HF HS]. split; [|exact HS].
  eapply Forall_impl; [|exact HF]. intros [a b] (_ & H2 & H3); simpl in *.
  rewrite Nat.sub_0_r in H3. unfold item_sep_at in H3.
  destruct (fixed_prefix item_sep_pat (skipn a body)) eqn:E; [|discriminate].
  injection H3 as H3. pose proof (fixed_prefix_length _ _ E) as Hl.
  rewrite length_skipn in Hl. unfold sep_match, sep_len. cbn [fst snd].
  assert (Hn : length item_sep_pat = 22) by reflexivity. rewrite Hn in *.
  split; [lia|]. split; [lia | exact E].
Qed.

Lemma windows2_snoc_length (l : list nat) z : length (windows2 (l ++ [z])) = length l.
Proof.
  induction l as [|a l IH]; [reflexivity|].
  destruct l as [|b l]; [reflexivity|].
  simpl in *. rewrite IH. reflexivity.
Qed.

Lemma windows2_sep body ms :
  Forall (sep_match body) ms -> Sorted non_overlapping ms ->
  forall w, In w (windows2 (map fst ms ++ [length body])) ->
    fixed_prefix item_sep_pat (slice body (fst w) (snd w)) = true.
Proof.
  induction ms as [|x ms IH]; intros HF HS w Hw; [destruct Hw|].
  inversion HF as [|? ? Hx HF']; subst. inversion HS as [|? ? HS' Hhd]; subst.
  destruct Hx as (Hb & Hle & Hp).
  assert (Hhead : forall nxt, snd x <= nxt ->
            fixed_prefix item_sep_pat (slice body (fst x) nxt) = true).
  { intros nxt Hn. unfold slice. apply fixed_prefix_firstn; [exact Hp|].
    unfold sep_len in Hb. lia. }
  destruct ms as [|y ms]; simpl in Hw.
  - destruct Hw as [<-|[]]. apply Hhead. exact Hle.
  - destruct Hw as [<-|Hw].
    + apply Hhead. inversion Hhd. exact H0.
    + apply IH; [exact HF' | exact HS' | exact Hw].
Qed.

Lemma item_windows_parse body w :
  In w (item_windows body) -> fixed_prefix item_sep_pat (slice body (fst w) (snd w)) = true.
Proof.
  unfold item_windows. destruct (find_iter_sep body) as [HF HS].
  destruct (map fst (find_iter item_sep_at body)) eqn:E; [intros []|].
  rewrite <- E. apply windows2_sep; assumption.
Qed.

Lemma item_windows_length body : length (item_windows body) = length (find_iter item_sep_at body).
Proof.
  unfold item_windows.
  destruct (map fst (find_iter item_sep_at body)) eqn:E.
  - apply (f_equal (@length nat)) in E. rewrite length_map in E. simpl in *. lia.
  - rewrite <- E, windows2_snoc_length, length_map. reflexivity.
Qed.

Lemma flat_map_singletons {A B} (g : A -> list B) (ws : list A) :
  (forall w, In w ws -> length (g w) = 1) -> length (flat_map g ws) = length ws.
Proof.
  induction ws as [|w ws IH]; intro H; simpl; [reflexivity|].
  rewrite length_app, H by (left; reflexivity). rewrite IH; [reflexivity|].
  intros w' Hw'. apply H. right. exact Hw'.
Qed.

Lemma item_parse_some block :
  fixed_prefix item_sep_pat block = true -> exists ts rest, item_parse block = Some (ts, rest).
Proof. intro H. unfold item_parse. rewrite H. eauto. Qed.

Lemma parser_windows_count body :
  length (flat_map (fun w => match P.window_item body w with Some it => [it] | None => [] end)
                   (item_windows body)) = length (find_iter item_sep_at body).
Proof.
  rewrite flat_map_singletons, item_windows_length; [reflexivity|].
  intros w Hw. apply item_windows_parse in Hw. apply item_parse_some in Hw as [ts [rest Hp]].
  unfold P.window_item, P.parse_structured. rewrite Hp.
  destruct (split_header _) as [[[o l] t] m]. reflexivity.
Qed.

(** lazylog-parser's [process_delta] gives exactly one entry per [## <timestamp>]
    delimiter found in the cleaned delta: every window between consecutive
    delimiters (the last one up to the end) starts with a full delimiter and
    parses. *)
Theorem parser_entry_count delta :
  length (P.process_delta delta) = length (find_iter item_sep_at (clean delta)).
Proof.
  unfold P.process_delta. cbv zeta.
  destruct (clean delta) as [|c t]; [reflexivity|].
  destruct (find_iter item_sep_at (c :: t)) eqn:Hf; [reflexivity|].
  rewrite parser_windows_count, Hf. reflexivity.
Qed.

(** lazylog-dyeh's [process_delta] gives one entry per delimiter of the
    cleaned delta plus one per pause/resume block. *)
Theorem dyeh_entry_count delta :
  length (Dyeh.process_delta delta) =
  length (Dyeh.special_events (clean delta)) + length (find_iter item_sep_at (clean delta)).
Proof.
  unfold Dyeh.process_delta, Dyeh.process_delta_positioned. cbv zeta.
  destruct (clean delta) as [|c t]; [vm_compute; reflexivity|].
  rewrite length_map, (Permutation_length (SortFacts.sort_by_key_perm fst _)), length_app.
  f_equal. unfold Dyeh.structured_items.
  rewrite flat_map_singletons, item_windows_length; [reflexivity|].
  intros w Hw. apply item_windows_parse in Hw. apply item_parse_some in Hw as [ts [rest Hp]].
  unfold Dyeh.parse_structured. rewrite Hp.
  destruct (split_header _) as [[[o l] tg] m]. reflexivity.
Qed.

End CountExtras.

Module AndroidExtras.
Import Text TextFacts LazyParser Android.

Lemma split_nl_nonempty t : split_nl t <> [].
Proof.
  induction t as [|c t IH]; simpl; [discriminate|].
  destruct (Ascii.eqb c nl); [discriminate|]. destruct (split_nl t); discriminate.
Qed.

(** [lines.join("\n")] undoes [split('\n')]. *)
Lemma join_split_nl t : join_nl (split_nl t) = t.
Proof.
  induction t as [|c t IH]; simpl; [reflexivity|].
  destruct (Ascii.eqb c nl) eqn:E.
  - apply Ascii.eqb_eq in E. subst c.
    destruct (split_nl t) as [|l ls] eqn:Es; [exfalso; exact (split_nl_nonempty t Es)|].
    rewrite <- IH. reflexivity.
  - destruct (split_nl t) as [|l [|l2 ls]] eqn:Es; [exfalso; exact (split_nl_nonempty t Es)| |];
      rewrite <- IH; reflexivity.
Qed.

Lemma lines_nonempty t : t <> [] -> lines t <> [].
Proof.
  intro Ht. unfold lines. pose proof (join_split_nl t) as J.
  destruct (split_nl t) as [|l [|l2 ls]] eqn:E.
  - exfalso. exact (split_nl_nonempty t E).
  - simpl in *. destruct l; [subst; contradiction | discriminate].
  - simpl. discriminate.
Qed.

(** [AndroidParser::parse] returns [None] exactly for the empty log and
    for a bracketed header whose last whitespace char before its first '/'
    takes several bytes (U+00A0, say), where slicing the header at the byte
    after it panics; every item it returns keeps the whole raw log as its
    raw content. *)
Theorem android_parse_none_iff (raw_log : str) :
  (android_parse raw_log = None <->
   raw_log = [] \/
   exists first_line rest slash_pos p n,
     lines raw_log = first_line :: rest /\
     starts_with_char first_line "["%char && ends_with_char first_line "]"%char = true /\
     find_by (fun c => Ascii.eqb c "/"%char) (slice first_line 1 (length first_line - 1))
       = Some slash_pos /\
     rfind_ws (firstn slash_pos (slice first_line 1 (length first_line - 1))) = Some (p, n) /\
     1 < n) /\
  (forall it, android_parse raw_log = Some it -> raw_content it = raw_log).
Proof.
  split; [|exact (AndroidClaims.android_parse_raw raw_log)].
  unfold android_parse.
  destruct (lines raw_log) as [|fl rest] eqn:E.
  - split; [intros _; left|reflexivity].
    destruct raw_log as [|c t]; [reflexivity|].
    exfalso. exact (lines_nonempty (c :: t) ltac:(discriminate) E).
  - assert (Hne : raw_log <> []) by (intros ->; discriminate E).
    destruct (starts_with_char fl "["%char && ends_with_char fl "]"%char) eqn:Eb; cbn [negb].
    + destruct (find_by _ _) as [sp|] eqn:Es.
      * destruct (rfind_ws _) as [[p [|[|k]]]|] eqn:Er.
        -- split; [discriminate|].
           intros [H|(fl' & rest' & sp' & p' & n' & H1 & _ & H3 & H4 & H5)]; [contradiction|].
           injection H1 as <- <-. rewrite Es in H3. injection H3 as <-.
           rewrite Er in H4. injection H4 as <- <-. lia.
        -- split; [discriminate|].
           intros [H|(fl' & rest' & sp' & p' & n' & H1 & _ & H3 & H4 & H5)]; [contradiction|].
           injection H1 as <- <-. rewrite Es in H3. injection H3 as <-.
           rewrite Er in H4. injection H4 as <- <-. lia.
        -- split; [intros _; right|reflexivity].
           exists fl, rest, sp, p, (S (S k)). repeat split; auto. lia.
        -- split; [discriminate|].
           intros [H|(fl' & rest' & sp' & p' & n' & H1 & _ & H3 & H4 & H5)]; [contradiction|].
           injection H1 as <- <-. rewrite Es in H3. injection H3 as <-.
           rewrite Er in H4. discriminate H4.
      * split; [discriminate|].
        intros [H|(fl' & rest' & sp' & p' & n' & H1 & _ & H3 & _)]; [contradiction|].
        injection H1 as <- <-. rewrite Es in H3. discriminate H3.
    + split; [discriminate|].
      intros [H|(fl' & rest' & sp' & p' & n' & H1 & H2 & _)]; [contradiction|].
      injection H1 as <- <-. rewrite Eb in H2. discriminate H2.
Qed.

Definition nbsp_raw : str :=
  s "[ 11-14 15:48:35.135 20387:30427" ++ [ascii_of_nat 194; ascii_of_nat 160] ++ s "E/tag ]".

(** The header above has a no-break space (bytes C2 A0) before "E/tag":
    [AndroidParser::parse] panics on it. *)
Lemma android_parse_nbsp_panics : android_parse nbsp_raw = None.
Proof. vm_compute. reflexivity. Qed.


Lemma ws_len_is_ws c t : ws_len (c :: t) = 0 -> is_ws c = false.
Proof. simpl. destruct (is_ws c); [discriminate | reflexivity]. Qed.




Lemma trim_start_ws_from_spec t : forall skip,
  (trim_start_ws_from t skip = [] \/ ws_len (trim_start_ws_from t skip) = 0) /\
  exists j, trim_start_ws_from t skip = skipn j t.
Proof.
  induction t as [|c t IH]; intros skip.
  - split; [left; reflexivity | exists 0; reflexivity].
  - cbn [trim_start_ws_from]. destruct skip as [|k].
    + destruct (ws_len (c :: t)) as [|k] eqn:Ew.
      * split; [right; exact Ew | exists 0; reflexivity].
      * destruct (IH k) as [H [j Hj]]. split; [exact H | exists (S j); exact Hj].
    + destruct (IH k) as [H [j Hj]]. split; [exact H | exists (S j); exact Hj].
Qed.

Lemma content_end_spec t : forall i skip last,
  content_end t i skip last = last \/
  (i < content_end t i skip last /\ content_end t i skip last <= i + length t /\
   ws_len (skipn (content_end t i skip last - 1 - i) t) = 0).
Proof.
  induction t as [|c t IH]; intros i skip last; [left; reflexivity|].
  assert (Hstep : forall k l, content_end t (S i) k l = l \/
            (S i < content_end t (S i) k l /\ content_end t (S i) k l <= S i + length t /\
             ws_len (skipn (content_end t (S i) k l - 1 - S i) t) = 0) ->
            content_end t (S i) k l = l \/
            (i < content_end t (S i) k l /\ content_end t (S i) k l <= i + length (c :: t) /\
             ws_len (skipn (content_end t (S i) k l - 1 - i) (c :: t)) = 0)).
  { intros k l [H|(H1 & H2 & H3)]; [left; exact H|right].
    split; [lia|]. split; [simpl; lia|].
    replace (content_end t (S i) k l - 1 - i) with (S (content_end t (S i) k l - 1 - S i)) by lia.
    exact H3. }
  cbn [content_end]. destruct skip as [|k].
  - destruct (ws_len (c :: t)) as [|k] eqn:Ew.
    + destruct (IH (S i) 0 (S i)) as [H|H].
      * rewrite H. right. split; [lia|]. split; [simpl; lia|].
        replace (S i - 1 - i) with 0 by lia. exact Ew.
      * destruct H as (H1 & H2 & H3). right. split; [lia|]. split; [simpl; lia|].
        replace (content_end t (S i) 0 (S i) - 1 - i)
          with (S (content_end t (S i) 0 (S i) - 1 - S i)) by lia.
        exact H3.
    + apply Hstep, IH.
  - apply Hstep, IH.
Qed.

Lemma firstn_snoc_skipn (t : str) k c r :
  skipn k t = c :: r -> firstn (S k) t = firstn k t ++ [c].
Proof.
  revert k. induction t as [|d t IH]; intros [|k] H; simpl in *; try discriminate.
  - injection H as -> _. reflexivity.
  - rewrite (IH k H). reflexivity.
Qed.

Lemma trim_ws_incl t : incl (trim_ws t) t.
Proof.
  unfold trim_ws. destruct (trim_start_ws_from_spec t 0) as [_ [j Hj]]. rewrite Hj.
  intros x Hx. apply in_firstn_in, in_skipn_in in Hx. exact Hx.
Qed.

Lemma trim_fixed t :
  (forall c r, t = c :: r -> is_ws c = false) ->
  (forall c r, t = r ++ [c] -> is_ws c = false) ->
  trim t = t.
Proof.
  intros Hh Hl. unfold trim, trim_end_by.
  assert (Hs : trim_start_by is_ws t = t).
  { destruct t as [|c r]; [reflexivity|]. simpl. rewrite (Hh c r eq_refl). reflexivity. }
  rewrite Hs. destruct (rev t) as [|c r] eqn:Er.
  { apply (f_equal (@rev ascii)) in Er. rewrite rev_involutive in Er. subst t. reflexivity. }
  simpl. rewrite (Hl c (rev r)).
  - rewrite <- Er, rev_involutive. reflexivity.
  - rewrite <- (rev_involutive t), Er. reflexivity.
Qed.

(** What [str::trim] returns neither starts nor ends with ASCII
    whitespace. *)
Lemma trim_trim_ws t : trim (trim_ws t) = trim_ws t.
Proof.
  unfold trim_ws. set (u := trim_start_ws_from t 0).
  destruct (trim_start_ws_from_spec t 0) as [Hu _]. fold u in Hu.
  destruct (content_end_spec u 0 0 0) as [He | (H1 & H2 & H3)].
  - rewrite He. reflexivity.
  - set (e := content_end u 0 0 0) in *.
    destruct u as [|c u'] eqn:Eu; [destruct e; reflexivity|].
    destruct Hu as [Hu|Hu]; [discriminate|].
    rewrite <- Eu in *.
    destruct (skipn (e - 1) u) as [|c' r'] eqn:Es.
    { exfalso. apply (f_equal (@length ascii)) in Es. rewrite length_skipn in Es. simpl in Es. lia. }
    replace e with (S (e - 1)) by lia.
    rewrite (firstn_snoc_skipn u (e - 1) c' r' Es).
    apply trim_fixed.
    + intros c0 r0 H. destruct (e - 1) as [|k].
      * simpl in H. injection H as <- _. rewrite Eu in Es. injection Es as <- _.
        rewrite Eu in Hu. exact (ws_len_is_ws c u' Hu).
      * rewrite Eu in H. simpl in H. injection H as <- _. rewrite Eu in Hu.
        exact (ws_len_is_ws c u' Hu).
    + intros c0 r0 H. apply app_inj_tail in H as [_ <-].
      replace (e - 1 - 0) with (e - 1) in H3 by lia. rewrite Es in H3.
      exact (ws_len_is_ws c' r' H3).
Qed.




(** [AndroidEffectParser::parse] keeps a log only when it carries the
    structured marker and [AndroidParser::parse] gave it the tag [[Effect]]
    or [CKE-Editor]; the item is then an entry of [process_delta] on the
    message. *)
Theorem effect_parse_filter (raw_log : str) (it : LogItem) :
  android_effect_parse raw_log = Some it ->
  has_structured_marker raw_log = true /\
  exists parsed, android_parse raw_log = Some parsed /\
    (get_metadata parsed "tag" = Some (s "[Effect]") \/
     get_metadata parsed "tag" = Some (s "CKE-Editor")) /\
    In it (LazyParser.process_delta (content parsed)).
Proof.
  unfold android_effect_parse.
  intro H. destruct (android_parse raw_log) as [parsed|]; [|discriminate].
  set (tag := match get_metadata parsed "tag" with Some t => t | None => [] end) in H.
  destruct (str_eqb tag (s "[Effect]") || str_eqb tag (s "CKE-Editor")) eqn:Eallowed;
    [|discriminate H].
  simpl in H. destruct (has_structured_marker raw_log); [|discriminate H].
  destruct (LazyParser.process_delta (content parsed)) as [|item rest] eqn:Ep; [discriminate H|].
  injection H as <-. split; [reflexivity|]. exists parsed.
  split; [reflexivity|]. split; [|rewrite Ep; left; reflexivity].
  apply orb_prop in Eallowed as [E|E]; unfold str_eqb in E;
    (destruct (list_eq_dec ascii_dec tag _) as [Heq|]; [|discriminate E]);
    [left|right]; unfold tag in Heq;
    (destruct (get_metadata parsed "tag"); [rewrite Heq; reflexivity | discriminate Heq]).
Qed.

Lemma effect_parse_filter_witness :
  exists it, android_effect_parse AndroidClaims.effect_raw = Some it /\
  (has_structured_marker AndroidClaims.effect_raw = true /\
   exists parsed, android_parse AndroidClaims.effect_raw = Some parsed /\
     (get_metadata parsed "tag" = Some (s "[Effect]") \/
      get_metadata parsed "tag" = Some (s "CKE-Editor")) /\
     In it (LazyParser.process_delta (content parsed))).
Proof.
  destruct (android_effect_parse AndroidClaims.effect_raw) as [it|] eqn:E;
    [|vm_compute in E; discriminate E].
  exists it. split; [reflexivity|]. exact (effect_parse_filter _ it E).
Defined.

Lemma split_nl_no_nl t : forall p, In p (split_nl t) -> ~ In nl p.
Proof.
  induction t as [|c t IH]; simpl.
  - intros p [<-|[]]. intros [].
  - destruct (Ascii.eqb c nl) eqn:E.
    + intros p [<-|Hp]; [intros []| exact (IH p Hp)].
    + destruct (split_nl t) as [|l ls] eqn:Es.
      * intros p [<-|[]] [Hc|[]]. subst c. rewrite Ascii.eqb_refl in E. discriminate.
      * intros p [<-|Hp].
        -- intros [Hc|Hn]; [subst c; rewrite Ascii.eqb_refl in E; discriminate|].
           exact (IH l (or_introl eq_refl) Hn).
        -- exact (IH p (or_intror Hp)).
Qed.

Lemma find_first_nonblank (ls : list str) :
  (exists line, In line ls /\ trim_ws line <> []) ->
  exists pre line post,
    ls = pre ++ line :: post /\ Forall (fun l => trim_ws l = []) pre /\
    find (fun x => negb (is_emptyb x)) (map trim_ws ls) = Some (trim_ws line) /\
    trim_ws line <> [].
Proof.
  induction ls as [|l ls IH]; intros [line [Hin Hne]]; [destruct Hin|].
  simpl. destruct (trim_ws l) as [|c r] eqn:El; simpl.
  - destruct Hin as [<-|Hin]; [contradiction|].
    destruct (IH (ex_intro _ line (conj Hin Hne))) as (pre & x & post & -> & Hpre & Hf & Hx).
    exists (l :: pre), x, post. split; [reflexivity|]. split; [constructor; assumption|].
    split; assumption.
  - exists [], l, ls. split; [reflexivity|]. split; [constructor|].
    rewrite El. split; [reflexivity | discriminate].
Qed.

(** [AndroidParser::shorten_content] on a content with a line that is not
    blank gives the first such line, trimmed: every line before it is
    blank, and the result is non-empty, holds no newline and has no
    whitespace at either end. *)
Theorem shorten_content_first_line (content : str) :
  (exists line, In line (split_nl content) /\ trim_ws line <> []) ->
  exists pre line post,
    split_nl content = pre ++ line :: post /\
    Forall (fun l => trim_ws l = []) pre /\
    shorten_content content = trim_ws line /\
    shorten_content content <> [] /\ ~ In nl (shorten_content content) /\
    trim (shorten_content content) = shorten_content content.
Proof.
  intros H. destruct (find_first_nonblank _ H) as (pre & line & post & Hs & Hpre & Hf & Hne).
  exists pre, line, post. unfold shorten_content. rewrite Hf.
  split; [exact Hs|]. split; [exact Hpre|]. split; [reflexivity|]. split; [exact Hne|].
  split; [|apply trim_trim_ws].
  intro Hn. apply (split_nl_no_nl content line); [|exact (trim_ws_incl line nl Hn)].
  rewrite Hs. apply in_or_app. right. left. reflexivity.
Qed.

Definition two_line_content : str := s "  " ++ nl :: s " hi " ++ nl :: s "rest".

Lemma shorten_content_first_line_witness :
  (exists line, In line (split_nl two_line_content) /\ trim_ws line <> []) /\
  shorten_content two_line_content = s "hi" /\
  exists pre line post,
    split_nl two_line_content = pre ++ line :: post /\
    Forall (fun l => trim_ws l = []) pre /\
    shorten_content two_line_content = trim_ws line /\
    shorten_content two_line_content <> [] /\ ~ In nl (shorten_content two_line_content) /\
    trim (shorten_content two_line_content) = shorten_content two_line_content.
Proof.
  assert (H : exists line, In line (split_nl two_line_content) /\ trim_ws line <> []).
  { exists (s " hi "). split; [vm_compute; auto | vm_compute; discriminate]. }
  split; [exact H|]. split; [vm_compute; reflexivity|].
  exact (shorten_content_first_line two_line_content H).
Defined.





End AndroidExtras.

Module IosExtras.
Import Text LazyParser Android Ios.

(** [IosFullParser::parse] panics exactly when the fifth space-separated
    field holds its first ">:" at or before its first '<': the level slice
    [start + 1..end] is then reversed. Otherwise it returns an item. *)
Theorem ios_full_parse_panics (raw_log : str) :
  ios_full_parse raw_log = None <->
  exists p0 p1 p2 p3 level_and_content rest start end_,
    splitn 5 " "%char raw_log = p0 :: p1 :: p2 :: p3 :: level_and_content :: rest /\
    find_by (fun c => Ascii.eqb c "<"%char) level_and_content = Some start /\
    find_sub (s ">:") level_and_content = Some end_ /\ end_ <= start.
Proof.
  unfold ios_full_parse.
  destruct (splitn 5 " "%char raw_log) as [|p0 [|p1 [|p2 [|p3 [|lc rest]]]]];
    try (split; [discriminate | intros (? & ? & ? & ? & ? & ? & ? & ? & H & _); discriminate H]).
  cbv zeta.
  destruct (find_by _ lc) as [st|] eqn:Est.
  - destruct (find_sub (s ">:") lc) as [en|] eqn:Een.
    + destruct (en <? st + 1) eqn:Elt.
      * split; [intros _ | reflexivity]. apply Nat.ltb_lt in Elt.
        exists p0, p1, p2, p3, lc, rest, st, en. repeat split; auto. lia.
      * split; [intro H; discriminate H|].
        intros (q0 & q1 & q2 & q3 & lc' & rest' & st' & en' & Hs & Hst & Hen & Hle).
        injection Hs as <- <- <- <- <- <-. rewrite Est in Hst. rewrite Een in Hen.
        injection Hst as <-. injection Hen as <-. apply Nat.ltb_ge in Elt. lia.
    + split; [intro H; discriminate H|].
      intros (q0 & q1 & q2 & q3 & lc' & rest' & st' & en' & Hs & Hst & Hen & Hle).
      injection Hs as <- <- <- <- <- <-. rewrite Een in Hen. discriminate Hen.
  - split; [intro H; discriminate H|].
    intros (q0 & q1 & q2 & q3 & lc' & rest' & st' & en' & Hs & Hst & Hen & Hle).
    injection Hs as <- <- <- <- <- <-. rewrite Est in Hst. discriminate Hst.
Qed.

(** A syslog line whose message has ">:" before '<' reaches that panic. *)
Lemma ios_full_parse_panic_example :
  ios_full_parse (s "Oct 29 11:27:36 App[1] map>: see <details>") = None.
Proof. vm_compute. reflexivity. Qed.

End IosExtras.

Module DrainExtras.
Import HandOff.

Section Drain.
Context {A : Type}.

Lemma drain_fuel_all (n : nat) (cap : nat) (l : list A) :
  length l < n -> drain_fuel n (mkRing cap l) = (l, mkRing cap []).
Proof.
  revert l. induction n as [|n IH]; intros l Hl; [lia|].
  destruct l as [|x l]; [reflexivity|]. simpl in *.
  rewrite IH by lia. reflexivity.
Qed.

(** What the provider thread pushes in one poll and the app's drain in
    [update_logs] takes out are the parsed items in order: the drained logs
    followed by the dropped ones give back the buffer's former contents and
    every parsed item; the drain leaves the buffer empty. *)
Theorem poll_then_drain {R : Type} (parse : R -> option A) (r : @ring A) (raw_logs : list R) :
  let '(r', dropped) := push_polled parse r raw_logs in
  fst (drain r') ++ dropped = items r ++ HandOffClaims.parsed_items parse raw_logs /\
  items (snd (drain r')) = [] /\ capacity (snd (drain r')) = capacity r.
Proof.
  rewrite HandOffClaims.push_polled_spec. unfold drain. cbn [capacity items].
  rewrite drain_fuel_all by lia. cbn [fst snd capacity items].
  rewrite <- app_assoc, firstn_skipn. auto.
Qed.

End Drain.
End DrainExtras.

Module LineExtras.
Import Text Dyeh.

Local Abbreviation nlc := "010"%char.

Lemma find_nl_some t k :
  find_nl t = Some k -> nth_error t k = Some nlc /\ forall i, i < k -> nth_error t i <> Some nlc.
Proof.
  revert k. induction t as [|c t IH]; intros k; simpl; [discriminate|].
  destruct (Ascii.eqb c nlc) eqn:E.
  - intro H. injection H as <-. apply Ascii.eqb_eq in E. subst. split; [reflexivity | lia].
  - destruct (find_nl t) as [k'|] eqn:Ek; [|discriminate].
    intro H. injection H as <-. destruct (IH k' eq_refl) as [H1 H2].
    split; [exact H1|]. intros [|i] Hi; simpl.
    + intro Hc. injection Hc as ->. rewrite Ascii.eqb_refl in E. discriminate.
    + apply H2. lia.
Qed.

Lemma find_nl_none t : find_nl t = None -> forall i, nth_error t i <> Some nlc.
Proof.
  induction t as [|c t IH]; simpl; intros H i.
  - destruct i; discriminate.
  - destruct (Ascii.eqb c nlc) eqn:E; [discriminate|].
    destruct (find_nl t) eqn:Ek; [discriminate|].
    destruct i as [|i]; simpl.
    + intro Hc. injection Hc as ->. rewrite Ascii.eqb_refl in E. discriminate.
    + apply IH. reflexivity.
Qed.

Lemma rfind_nl_some t p :
  rfind_nl t = Some p ->
  p < length t /\ nth_error t p = Some nlc /\
  forall i, p < i < length t -> nth_error t i <> Some nlc.
Proof.
  unfold rfind_nl. destruct (find_nl (rev t)) as [k|] eqn:E; [|discriminate].
  intro H. injection H as <-. apply find_nl_some in E as [H1 H2].
  assert (Hk : k < length t).
  { rewrite <- length_rev. apply nth_error_Some. rewrite H1. discriminate. }
  rewrite nth_error_rev in H1. apply Nat.ltb_lt in Hk as Hk'. rewrite Hk' in H1.
  split; [lia|]. split; [replace (length t - 1 - k) with (length t - S k) by lia; exact H1|].
  intros i Hi. specialize (H2 (length t - S i) ltac:(lia)).
  rewrite nth_error_rev in H2.
  replace (length t - S i <? length t) with true in H2 by (symmetry; apply Nat.ltb_lt; lia).
  replace (length t - S (length t - S i)) with i in H2 by lia. exact H2.
Qed.

Lemma rfind_nl_none t : rfind_nl t = None -> forall i, nth_error t i <> Some nlc.
Proof.
  unfold rfind_nl. destruct (find_nl (rev t)) as [k|] eqn:E; [discriminate|].
  intros _ i. pose proof (find_nl_none _ E (length t - S i)) as H.
  rewrite nth_error_rev in H.
  destruct (Nat.ltb_spec i (length t)) as [Hi|Hi].
  - replace (length t - S i <? length t) with true in H by (symmetry; apply Nat.ltb_lt; lia).
    replace (length t - S (length t - S i)) with i in H by lia. exact H.
  - rewrite (proj2 (nth_error_None t i) Hi). discriminate.
Qed.

Lemma nth_error_firstn_lt (t : str) st i : i < st -> nth_error (firstn st t) i = nth_error t i.
Proof.
  intro H. rewrite nth_error_firstn. apply Nat.ltb_lt in H. rewrite H. reflexivity.
Qed.

(** The range [(line_start text st, line_end text e)] that
    [pause_block_ranges] and [resume_block_ranges] build around a match
    [st..e] covers whole lines: it starts at the beginning of the text or
    just after a newline with no newline up to [st], and (for [e] inside the
    text) it ends at the end of the text or just after the first newline at
    or after [e]. *)
Theorem match_range_whole_lines (text : str) (st e : nat) :
  e <= length text ->
  line_start text st <= st /\
  (line_start text st = 0 \/ nth_error text (line_start text st - 1) = Some nlc) /\
  (forall i, line_start text st <= i < st -> nth_error text i <> Some nlc) /\
  e <= line_end text e <= length text /\
  (line_end text e = length text \/ nth_error text (line_end text e - 1) = Some nlc) /\
  (forall i, e <= i < line_end text e - 1 -> nth_error text i <> Some nlc).
Proof.
  intro He. split; [|split; [|split]].
  - unfold line_start. destruct (rfind_nl (firstn st text)) as [p|] eqn:E; [|lia].
    apply rfind_nl_some in E as [Hp _]. rewrite length_firstn in Hp. lia.
  - unfold line_start. destruct (rfind_nl (firstn st text)) as [p|] eqn:E; [|left; reflexivity].
    right. apply rfind_nl_some in E as (Hp & Hn & _). rewrite length_firstn in Hp.
    replace (p + 1 - 1) with p by lia. rewrite <- nth_error_firstn_lt with (st := st) by lia.
    exact Hn.
  - unfold line_start. destruct (rfind_nl (firstn st text)) as [p|] eqn:E.
    + apply rfind_nl_some in E as (Hp & _ & Hafter). intros i Hi.
      destruct (Nat.ltb_spec i (length (firstn st text))) as [Hlt|Hge].
      * rewrite <- nth_error_firstn_lt with (st := st) by lia. apply Hafter. lia.
      * rewrite length_firstn in Hge. rewrite (proj2 (nth_error_None text i)) by lia.
        discriminate.
    + intros i Hi. rewrite <- nth_error_firstn_lt with (st := st) by lia.
      apply rfind_nl_none, E.
  - unfold line_end. destruct (find_nl (skipn e text)) as [k|] eqn:E.
    + apply find_nl_some in E as [Hk Hbefore].
      assert (Hlt : k < length (skipn e text)) by (apply nth_error_Some; rewrite Hk; discriminate).
      rewrite length_skipn in Hlt.
      split; [lia|]. split.
      * right. replace (e + (k + 1) - 1) with (e + k) by lia.
        rewrite <- nth_error_skipn. exact Hk.
      * intros i Hi. replace i with (e + (i - e)) by lia. rewrite <- nth_error_skipn.
        apply Hbefore. lia.
    + split; [lia|]. split; [left; lia|].
      intros i Hi. replace i with (e + (i - e)) by lia. rewrite <- nth_error_skipn.
      apply find_nl_none, E.
Qed.

Definition line_text : str := s "ab" ++ nlc :: s "onpause x" ++ nlc :: s "cd".

Lemma match_range_whole_lines_witness :
  10 <= length line_text /\
  (line_start line_text 3 <= 3 /\
   (line_start line_text 3 = 0 \/ nth_error line_text (line_start line_text 3 - 1) = Some nlc) /\
   (forall i, line_start line_text 3 <= i < 3 -> nth_error line_text i <> Some nlc) /\
   10 <= line_end line_text 10 <= length line_text /\
   (line_end line_text 10 = length line_text \/
    nth_error line_text (line_end line_text 10 - 1) = Some nlc) /\
   (forall i, 10 <= i < line_end line_text 10 - 1 -> nth_error line_text i <> Some nlc)).
Proof.
  split; [vm_compute; lia|].
  apply (match_range_whole_lines line_text 3 10). vm_compute. lia.
Defined.

End LineExtras.
